(** * BFU: Bluetooth Firmware Update (src/bfu.py)

    A shallow embedding of the frame builder, the per-packet retry loop,
    the upload session and the command-line plumbing of [bfu.py], and
    the properties of the transfer protocol that hold of them.

    Python values are modelled as follows.
    - [bytes] is a list of [Byte.byte]; [int] is [Z].
    - A raised exception is the left injection of a sum; the exceptions
      that the modelled code can raise are the constructors of [exn].
    - The [while] loop of [prepare_packets] does not terminate for every
      input, so it is run with fuel: [None] is "still looping".
    - The RFCOMM socket is a record holding the log of everything sent
      and the script of what the device will answer; the methods thread
      it through a state-and-exception monad.
    - What the program prints is not part of the model, but for the
      progress display, which comes before every packet and can raise:
      it asks for the size of the terminal, then formats and writes its
      line; see [console], [progress] and [sending_packets_on]. *)

From Stdlib Require Import ZArith List Bool Lia QArith.
From Stdlib Require Import Init.Byte Strings.Byte.
From Stdlib Require Ascii.
Import ListNotations.

Local Open Scope Z_scope.

(* ------------------------------------------------------------------ *)
(** ** Bytes and integers *)

Definition bytes := list byte.

Definition Z_of_byte (b : byte) : Z := Z.of_N (Byte.to_N b).

Definition byte_of_Z (z : Z) : byte :=
  match Byte.of_N (Z.to_N z) with
  | Some b => b
  | None => x00
  end.

Definition bytes_eqb (a b : bytes) : bool :=
  if list_eq_dec Byte.byte_eq_dec a b then true else false.

(** [len(b)] *)
Definition len (b : bytes) : Z := Z.of_nat (length b).

(** Exceptions raised by the modelled code. *)
Inductive exn : Type :=
| OverflowError                       (* int.to_bytes: negative or too big *)
| ValueError                          (* f.read: length below -1 *)
| ZeroDivisionError                   (* float division by zero *)
| BluetoothError                      (* sock.recv: timed out *)
| TransferDidNotBegin                 (* Exception('Transfer did not begin') *)
| PacketSendError (i total : nat)     (* Exception('packet %d/%d send error') *)
| EndingError                         (* Exception() in 'Ending transaction' *)
| DeviceNotFound                      (* Exception('Device not found') *)
| OSError                             (* os.get_terminal_size: no terminal *)
| ParserError.                        (* parser.error(...) *)

(** The [n] low-order base-256 digits of [z], least significant first. *)
Fixpoint le_digits (n : nat) (z : Z) : bytes :=
  match n with
  | O => []
  | S n' => byte_of_Z (z mod 256) :: le_digits n' (z / 256)
  end.

(** [z.to_bytes(n, byteorder='little', signed=False)] *)
Definition to_bytes (z : Z) (n : nat) : exn + bytes :=
  if (z <? 0) || (256 ^ Z.of_nat n <=? z)
  then inl OverflowError
  else inr (le_digits n z).

(** [int.from_bytes(b, byteorder='little', signed=False)]; not called by
    the program, used to read the header fields of a frame back. *)
Fixpoint from_bytes (b : bytes) : Z :=
  match b with
  | [] => 0
  | x :: b' => Z_of_byte x + 256 * from_bytes b'
  end.

(* ------------------------------------------------------------------ *)
(** ** zlib.crc32

    The CRC-32 of zlib: reflected polynomial 0xEDB88320, initial value
    and final xor 0xFFFFFFFF, computed bit by bit. *)

Definition crc_poly : Z := 0xEDB88320.
Definition crc_mask : Z := 0xFFFFFFFF.

Definition crc_shift (c : Z) : Z :=
  if Z.testbit c 0
  then Z.lxor (Z.shiftr c 1) crc_poly
  else Z.shiftr c 1.

Definition crc_byte (c : Z) (b : byte) : Z :=
  Nat.iter 8 crc_shift (Z.lxor c (Z_of_byte b)).

Definition crc32 (dat : bytes) : Z :=
  Z.lxor (fold_left crc_byte dat crc_mask) crc_mask.

(* ------------------------------------------------------------------ *)
(** ** FirmwareUpdater.prepare_packets *)

Definition PKG_SIZE : Z := 2.
Definition CRC_SIZE : Z := 4.

(** [f.read(n)] on the unread rest [f] of a file opened with mode
    ['rb']: the bytes read and the new rest.  [-1] reads to the end of
    the file, a length below [-1] is refused. *)
Definition read (f : bytes) (n : Z) : exn + (bytes * bytes) :=
  if n <? -1 then inl ValueError
  else if n <? 0 then inr (f, [])
  else inr (firstn (Z.to_nat n) f, skipn (Z.to_nat n) f).

(** One packet: [b''.join([ds_byte, crc, dat])], with the two
    [to_bytes] calls in the order the source makes them. *)
Definition make_packet (dat_size : Z) (dat : bytes) : exn + bytes :=
  match to_bytes (crc32 dat) 4 with
  | inl e => inl e
  | inr crc =>
      match to_bytes dat_size 2 with
      | inl e => inl e
      | inr ds_byte => inr (ds_byte ++ crc ++ dat)
      end
  end.

(** The [while size > 0] loop.  [f] is the unread rest of the file,
    [result] and [full_size] the accumulators.  [None]: out of fuel. *)
Fixpoint prepare_loop (fuel : nat) (packsize size : Z) (f : bytes)
    (result : list bytes) (full_size : Z)
  : option (exn + (list bytes * Z)) :=
  if size >? 0 then
    match fuel with
    | O => None
    | S fuel' =>
        let dat_size := Z.min packsize size in
        match read f dat_size with
        | inl e => Some (inl e)
        | inr (dat, f') =>
            match make_packet dat_size dat with
            | inl e => Some (inl e)
            | inr pkt =>
                prepare_loop fuel' packsize (size - dat_size) f'
                  (result ++ [pkt]) (full_size + len pkt)
            end
        end
    end
  else Some (inr (result, full_size)).

(** [prepare_packets] on a file whose contents are [file]:
    [os.path.getsize] is the length of the contents.  The result is the
    list of packets together with the value left in [self.full_size]. *)
Definition prepare_packets (fuel : nat) (packsize : Z) (file : bytes)
  : option (exn + (list bytes * Z)) :=
  prepare_loop fuel packsize (len file) file [] 0.

(** The fields of a packet as the receiver reads them. *)
Definition packet_length (p : bytes) : Z := from_bytes (firstn 2 p).
Definition packet_checksum (p : bytes) : Z := from_bytes (firstn 4 (skipn 2 p)).
Definition packet_payload (p : bytes) : bytes := skipn 6 p.

(* ------------------------------------------------------------------ *)
(** ** The socket

    [sent] logs the argument of every [sock.send], oldest first.
    [incoming] is what the device does at each [sock.recv(1)] to come:
    it delivers one byte, or it stays silent until the socket's timeout
    expires.  A socket with a timeout set raises from [recv] when the
    timeout expires; a device whose script has run out is silent. *)

Inductive event : Type :=
| Reply (b : byte)
| Timeout.

Record socket : Type := mkSocket {
  sent : list bytes;
  incoming : list event
}.

(** State (the socket) and exceptions. *)
Definition M (A : Type) : Type := socket -> (exn + A) * socket.

Definition ret {A : Type} (a : A) : M A := fun s => (inr a, s).

Definition raise {A : Type} (e : exn) : M A := fun s => (inl e, s).

Definition bind {A B : Type} (m : M A) (k : A -> M B) : M B :=
  fun s =>
    match m s with
    | (inl e, s') => (inl e, s')
    | (inr a, s') => k a s'
    end.

Notation "x <- m ;; k" := (bind m (fun x => k))
  (at level 61, m at next level, right associativity).
Notation "m ;; k" := (bind m (fun _ => k))
  (at level 61, right associativity).

(** [sock.send(data)] *)
Definition send (data : bytes) : M unit :=
  fun s => (inr tt, mkSocket (sent s ++ [data]) (incoming s)).

(** [sock.recv(1)] *)
Definition recv1 : M bytes :=
  fun s =>
    match incoming s with
    | Reply b :: rest => (inr [b], mkSocket (sent s) rest)
    | Timeout :: rest => (inl BluetoothError, mkSocket (sent s) rest)
    | [] => (inl BluetoothError, s)
    end.

(* ------------------------------------------------------------------ *)
(** ** FirmwareUpdater *)

Definition UPD_BEG : bytes := [xaa].
Definition UPD_ERR : bytes := [xee].
Definition UPD_END : bytes := [xff].

Definition PKG_ACK : bytes := [xff].
Definition PKG_ERR : bytes := [xee].
Definition PKG_PAN : bytes := [xaa].

(** [b'firmware_update'] *)
Definition firmware_update : bytes :=
  [x66; x69; x72; x6d; x77; x61; x72; x65; x5f;
   x75; x70; x64; x61; x74; x65].

Record FirmwareUpdater : Type := mkFirmwareUpdater {
  file : bytes;            (* the contents of the file at self.path *)
  timeout : Z;
  packsize : Z;
  attempts : Z;
  verbose : Z;
  sock : socket;
  full_size : Z;           (* 0 until prepare_packets sets it *)
  packets : list bytes     (* [] until upload_firmware sets it *)
}.

(** The keyword arguments of [__init__]; [None]: not passed. *)
Record kwargs : Type := mkKwargs {
  kw_timeout : option Z;
  kw_packsize : option Z;
  kw_attempts : option Z;
  kw_verbose : option Z
}.

(** [kwargs.pop(key, default)] *)
Definition pop (o : option Z) (default : Z) : Z :=
  match o with
  | Some v => v
  | None => default
  end.

(** [FirmwareUpdater.__init__].  [connection] is the connected socket
    for the first service found at the address, [None] when
    [find_service] finds nothing. *)
Definition init (contents : bytes) (connection : option socket) (kw : kwargs)
  : exn + FirmwareUpdater :=
  let timeout := pop (kw_timeout kw) 1 in
  let packsize := pop (kw_packsize kw) 512 - CRC_SIZE - PKG_SIZE in
  let attempts := pop (kw_attempts kw) 3 in
  let verbose := pop (kw_verbose kw) 0 in
  match connection with
  | None => inl DeviceNotFound
  | Some s =>
      inr (mkFirmwareUpdater contents timeout packsize attempts verbose s 0 [])
  end.

(** The body of [for i in range(n)] in [send_packet], [n] rounds left. *)
Fixpoint send_packet_loop (n : nat) (packet : bytes) : M bool :=
  match n with
  | O => send UPD_ERR ;; ret false
  | S n' =>
      send packet ;;
      r <- recv1 ;;
      if bytes_eqb r PKG_ACK then ret true
      else if bytes_eqb r PKG_PAN then ret false
      else send_packet_loop n' packet
  end.

(** [send_packet]: [range(self.attempts)] is empty for [attempts <= 0]. *)
Definition send_packet (attempts : Z) (packet : bytes) : M bool :=
  send_packet_loop (Z.to_nat attempts) packet.

(** [with Context('Starting transaction')] *)
Definition starting_transaction : M unit :=
  send firmware_update ;;
  recv1 ;;
  send UPD_BEG ;;
  r <- recv1 ;;
  if negb (bytes_eqb r PKG_ACK) then raise TransferDidNotBegin else ret tt.

(** [for i, p in enumerate(self.packets)], from index [i] on; [total] is
    [len(self.packets)]; on a run in which the [c.progress] call
    before each [send_packet] returns.  [sending_packets_on] is the
    loop with that call. *)
Fixpoint sending_packets (attempts : Z) (i total : nat) (ps : list bytes)
  : M unit :=
  match ps with
  | [] => ret tt
  | p :: ps' =>
      ok <- send_packet attempts p ;;
      if negb ok then raise (PacketSendError (i + 1) total)
      else sending_packets attempts (S i) total ps'
  end.

(** The report after the loop: [self.full_size / self.full_time / 1024]
    raises when the measured time is zero. *)
Definition average_speed (full_time : Q) : M unit :=
  if Qeq_bool full_time 0 then raise ZeroDivisionError else ret tt.

(** [with Context('Ending transaction')] *)
Definition ending_transaction : M unit :=
  send UPD_END ;;
  r <- recv1 ;;
  if negb (bytes_eqb r PKG_ACK) then raise EndingError else ret tt.

(** Everything [upload_firmware] does on the socket once the packets
    are prepared, on a run in which every [c.progress] call returns.
    [full_time] is the wall-clock time that the sending loop is
    measured to take. *)
Definition transaction (attempts : Z) (ps : list bytes) (full_time : Q)
  : M unit :=
  starting_transaction ;;
  sending_packets attempts 0 (length ps) ps ;;
  average_speed full_time ;;
  ending_transaction.

(** [upload_firmware], on a run in which every [c.progress] call
    returns ([upload_firmware_on] is the method for any run).  Every [Context]
    here is a required one, so an exception raised inside it is printed
    and the process exits with status 1: the left injection is that
    exit, after which the object is of no more use (it is returned as
    it was when the packets could not be prepared).  [None]: the packet
    loop is still running when the fuel runs out. *)
Definition upload_firmware (fuel : nat) (full_time : Q) (self : FirmwareUpdater)
  : option ((exn + unit) * FirmwareUpdater) :=
  match prepare_packets fuel (packsize self) (file self) with
  | None => None
  | Some (inl e) => Some (inl e, self)
  | Some (inr (ps, n)) =>
      let '(r, s) := transaction (attempts self) ps full_time (sock self) in
      Some (r, mkFirmwareUpdater (file self) (timeout self) (packsize self)
                 (attempts self) (verbose self) s n ps)
  end.

(** The process exit status. *)
Definition exit_status (r : exn + unit) : Z :=
  match r with
  | inr _ => 0
  | inl ParserError => 2
  | inl _ => 1
  end.

(* ------------------------------------------------------------------ *)
(** ** The session with its progress display *)

(** The console of a run.  [terminal] is what the standard output is:
    [Some columns] for a terminal that many columns wide, [None] for
    anything else (a pipe, a file).  [draws cur_v] is what becomes of
    formatting and writing the progress line for packet number [cur_v]
    in this run; it depends on the width, on the clock and on the
    formatting rules of the interpreter, which are not modelled. *)
Record console : Type := mkConsole {
  terminal : option Z;
  draws : nat -> exn + unit
}.

(** [os.get_terminal_size().columns] *)
Definition get_terminal_size (con : console) : M Z :=
  match terminal con with
  | None => raise OSError
  | Some columns => ret columns
  end.

(** [Context.progress(cur_v, max_v, start_time)]: the size of the
    terminal is asked for first, then the line is formatted and
    written. *)
Definition progress (con : console) (cur_v : nat) : M unit :=
  get_terminal_size con ;;
  (fun s => (draws con cur_v, s)).

(** [for i, p in enumerate(self.packets)] with the
    [c.progress(i + 1, len(self.packets), start_time)] that comes
    before every [send_packet]. *)
Fixpoint sending_packets_on (con : console) (attempts : Z)
    (i total : nat) (ps : list bytes) : M unit :=
  match ps with
  | [] => ret tt
  | p :: ps' =>
      progress con (i + 1) ;;
      ok <- send_packet attempts p ;;
      if negb ok then raise (PacketSendError (i + 1) total)
      else sending_packets_on con attempts (S i) total ps'
  end.

(** Everything [upload_firmware] does on the socket once the packets
    are prepared. *)
Definition transaction_on (con : console) (attempts : Z)
    (ps : list bytes) (full_time : Q) : M unit :=
  starting_transaction ;;
  sending_packets_on con attempts 0 (length ps) ps ;;
  average_speed full_time ;;
  ending_transaction.

(** [upload_firmware] *)
Definition upload_firmware_on (con : console) (fuel : nat)
    (full_time : Q) (self : FirmwareUpdater)
  : option ((exn + unit) * FirmwareUpdater) :=
  match prepare_packets fuel (packsize self) (file self) with
  | None => None
  | Some (inl e) => Some (inl e, self)
  | Some (inr (ps, n)) =>
      let '(r, s) :=
        transaction_on con (attempts self) ps full_time (sock self) in
      Some (r, mkFirmwareUpdater (file self) (timeout self) (packsize self)
                 (attempts self) (verbose self) s n ps)
  end.

(** The progress display works for the packets 1 to [n] of the run:
    the standard output is a terminal and each of their lines is
    drawn. *)
Definition displays (con : console) (n : nat) : Prop :=
  terminal con <> None
  /\ forall cur_v : nat, (1 <= cur_v <= n)%nat -> draws con cur_v = inr tt.

(** A terminal 80 columns wide on which every line is drawn, and a
    standard output that is not a terminal. *)
Definition terminal_80 : console := mkConsole (Some 80) (fun _ => inr tt).
Definition not_a_terminal : console := mkConsole None (fun _ => inr tt).

(* ------------------------------------------------------------------ *)
(** ** The command line *)

(** [check_size]: [parser.error] leaves the process. *)
Definition check_size (size : Z) : exn + Z :=
  if size <=? 0 then inl ParserError
  else if size >? 512 then inl ParserError
  else inr size.

(** The options as given on the command line; [None]: option absent. *)
Record argv : Type := mkArgv {
  opt_attemtps : option Z;
  opt_packsize : option Z;
  opt_verbose : Z
}.

(** The namespace that [parser.parse_args()] returns. *)
Record namespace : Type := mkNamespace {
  ns_attemtps : Z;
  ns_packsize : Z;
  ns_verbose : Z
}.

Definition parse_args (a : argv) : exn + namespace :=
  let attemtps := pop (opt_attemtps a) 3 in
  match opt_packsize a with
  | None => inr (mkNamespace attemtps 512 (opt_verbose a))
  | Some x =>
      match check_size x with
      | inl e => inl e
      | inr size => inr (mkNamespace attemtps size (opt_verbose a))
      end
  end.

(** [main] from [parse_args] to the construction of the updater, for a
    run that gives the options [-a], [-p] and [-v] only, a PATH that
    [check_file] accepts, of which [contents] is what the file holds,
    and a target: the list mode, the search by name ([find_device])
    and [check_file] itself are not part of it.
    [FirmwareUpdater(target, args.path, verbose=args.verbose,
    packsize=args.packsize)]. *)
Definition main_updater (a : argv) (contents : bytes)
    (connection : option socket) : exn + FirmwareUpdater :=
  match parse_args a with
  | inl e => inl e
  | inr args =>
      init contents connection
        (mkKwargs None (Some (ns_packsize args)) None (Some (ns_verbose args)))
  end.

(** [main] for such a run, in which every [c.progress] call returns:
    construct, then [fu.upload_firmware()]. *)
Definition main (fuel : nat) (full_time : Q) (a : argv) (contents : bytes)
    (connection : option socket) : option ((exn + unit) * option FirmwareUpdater) :=
  match main_updater a contents connection with
  | inl e => Some (inl e, None)
  | inr fu =>
      match upload_firmware fuel full_time fu with
      | None => None
      | Some (r, fu') => Some (r, Some fu')
      end
  end.

(* ------------------------------------------------------------------ *)
(** ** Frames as the protocol describes them *)

Definition word32 (z : Z) : Prop := 0 <= z < 2 ^ 32.

(** The frame that carries the payload [dat]: length (2 bytes,
    little-endian), CRC-32 of the payload (4 bytes, little-endian),
    payload. *)
Definition packet_of (dat : bytes) : bytes :=
  le_digits 2 (len dat) ++ le_digits 4 (crc32 dat) ++ dat.

(** The source cut into chunks of [c] bytes, the last one holding the
    remainder; at most [fuel] chunks. *)
Fixpoint chunks (fuel c : nat) (f : bytes) : list bytes :=
  match fuel with
  | O => []
  | S fuel' =>
      match f with
      | [] => []
      | _ :: _ => firstn c f :: chunks fuel' c (skipn c f)
      end
  end.

(** [build_frames(source, chunk_payload_size)] as the protocol
    description words it: one frame per chunk, in file order. *)
Definition build_frames (c : Z) (source : bytes) : list bytes :=
  map packet_of (chunks (length source) (Z.to_nat c) source).

(** The number of bytes in a list of byte strings. *)
Fixpoint total_len (ps : list bytes) : Z :=
  match ps with
  | [] => 0
  | p :: ps' => len p + total_len ps'
  end.

(** A frame laid out as length, checksum, payload, with a length field
    that counts the payload and a checksum that matches it. *)
Definition well_formed (p : bytes) : Prop :=
  p = le_digits 2 (len (packet_payload p))
        ++ le_digits 4 (crc32 (packet_payload p))
        ++ packet_payload p
  /\ packet_length p = len (packet_payload p)
  /\ packet_checksum p = crc32 (packet_payload p).

(** A response byte that is neither ACK nor NACK_ABORT: NACK_RETRY
    and every byte without a meaning of its own. *)
Definition other (b : byte) : Prop := b <> xff /\ b <> xaa.

(** The two ways in which [send_packet] gives a frame up. *)
Inductive failure : Type :=
| Aborted       (* the device answered NACK_ABORT *)
| Exhausted.    (* every attempt was used *)

(** What the device answers to a frame that fails: bytes that are
    neither ACK nor NACK_ABORT, one per fruitless attempt, and for an
    abort the NACK_ABORT that follows them. *)
Definition failing_script (why : failure) (bs : list byte)
    (rest : list event) : list event :=
  match why with
  | Aborted => map Reply bs ++ Reply xaa :: rest
  | Exhausted => map Reply bs ++ rest
  end.

(** The fruitless attempts leave room for the abort, or they are all
    the [N] attempts there are. *)
Definition failing_rounds (N : Z) (why : failure) (bs : list byte) : Prop :=
  Forall other bs /\
  match why with
  | Aborted => Z.of_nat (length bs) < N
  | Exhausted => Z.of_nat (length bs) = N
  end.

(** How often the frame goes out before it is given up. *)
Definition failing_sends (why : failure) (bs : list byte) : nat :=
  match why with
  | Aborted => S (length bs)
  | Exhausted => length bs
  end.

(** What is sent after the last send of the frame. *)
Definition error_bytes (why : failure) : list bytes :=
  match why with
  | Aborted => []
  | Exhausted => [UPD_ERR]
  end.

(* ------------------------------------------------------------------ *)
(** ** Sessions used as examples *)

Definition ten_bytes : bytes :=
  [x00; x01; x02; x03; x04; x05; x06; x07; x08; x09].

(** An updater for [contents] with chunk payload size [c] and [N]
    attempts per packet, connected to a device that will answer with
    [script]. *)
Definition updater (contents : bytes) (c N : Z) (script : list event)
  : FirmwareUpdater :=
  mkFirmwareUpdater contents 1 c N 0 (mkSocket [] script) 0 [].

(** The device acknowledges everything. *)
Definition scenario_A : FirmwareUpdater :=
  updater ten_bytes 4 3 (repeat (Reply xff) 6).

(** The device accepts the handshake, then aborts the first frame. *)
Definition scenario_B : FirmwareUpdater :=
  updater ten_bytes 4 3 [Reply xff; Reply xff; Reply xaa].

(** The device accepts the handshake, then goes silent. *)
Definition scenario_silent : FirmwareUpdater :=
  updater ten_bytes 4 3 [Reply xff; Reply xff; Timeout; Timeout; Timeout].

(** The device accepts the handshake, then asks for a resend for ever. *)
Definition scenario_retry : FirmwareUpdater :=
  updater ten_bytes 4 3
    [Reply xff; Reply xff; Reply xee; Reply xee; Reply xee].

Definition frame_0 : bytes := packet_of [x00; x01; x02; x03].
Definition frame_1 : bytes := packet_of [x04; x05; x06; x07].
Definition frame_2 : bytes := packet_of [x08; x09].

(** What a finished run leaves to observe: how it ended, the value of
    [full_size], and everything that went out on the socket. *)
Definition observe (r : option ((exn + unit) * FirmwareUpdater))
  : option ((exn + unit) * Z * list bytes) :=
  match r with
  | None => None
  | Some (e, fu) => Some (e, full_size fu, sent (sock fu))
  end.

(** How many times [data] went out on the socket during a run. *)
Definition count_sent (data : bytes)
    (r : option ((exn + unit) * FirmwareUpdater)) : option nat :=
  match r with
  | None => None
  | Some (_, fu) =>
      Some (count_occ (list_eq_dec Byte.byte_eq_dec) (sent (sock fu)) data)
  end.

(* ------------------------------------------------------------------ *)
(** ** Shapes of chunk lists and of device scripts *)

(** Every chunk but the last has exactly [c] bytes. *)
Fixpoint full_but_last (c : Z) (ds : list bytes) : Prop :=
  match ds with
  | [] => True
  | d :: ds' =>
      match ds' with
      | [] => True
      | _ :: _ => len d = c /\ full_but_last c ds'
      end
  end.

(** The responses to one packet that gets through: bytes that are
    neither ACK nor NACK_ABORT, fewer than [N] of them, before the ACK. *)
Definition retries_within (N : Z) (bs : list byte) : Prop :=
  Forall other bs /\ Z.of_nat (length bs) < N.

(** What the device answers when every packet gets through: for each
    packet the bytes [bs] of its fruitless attempts, then ACK. *)
Definition retry_script (bss : list (list byte)) : list event :=
  concat (map (fun bs => map Reply bs ++ [Reply xff]) bss).

(** What then goes out: each packet once per attempt, in order. *)
Fixpoint deliveries (ps : list bytes) (bss : list (list byte))
  : list bytes :=
  match ps, bss with
  | p :: ps', bs :: bss' => repeat p (S (length bs)) ++ deliveries ps' bss'
  | _, _ => []
  end.

(* ------------------------------------------------------------------ *)
(** ** main: what to do and with which device *)

(** [str] *)
Definition str := list Ascii.ascii.

(** The truth value of an optional string argument: [None] and the
    empty string are false. *)
Definition truthy (o : option str) : bool :=
  match o with
  | Some (_ :: _) => true
  | _ => false
  end.

Fixpoint starts_with (needle hay : str) : bool :=
  match needle, hay with
  | [], _ => true
  | _ :: _, [] => false
  | a :: needle', b :: hay' => Ascii.eqb a b && starts_with needle' hay'
  end.

(** [needle in hay] *)
Fixpoint contains (needle hay : str) : bool :=
  starts_with needle hay
  || match hay with
     | [] => false
     | _ :: hay' => contains needle hay'
     end.

(** [name] occurs in [hay] as a run of consecutive characters. *)
Definition occurs_in (name hay : str) : Prop :=
  exists l r : str, hay = l ++ name ++ r.

(** [for addr, name in nearby_devices: if args.name in name: target =
    addr; break] with its [else: raise Exception('Device not found')]. *)
Fixpoint find_device (name : str) (nearby_devices : list (str * str))
  : exn + str :=
  match nearby_devices with
  | [] => inl DeviceNotFound
  | (addr, dev_name) :: rest =>
      if contains name dev_name then inr addr else find_device name rest
  end.

(** What [main] goes on to do once the arguments are parsed. *)
Inductive action : Type :=
| ListDevices               (* FirmwareUpdater.list_devices(); exit(0) *)
| Upload (target : str).    (* FirmwareUpdater(target, ...) *)

(** The branches of [main] on [args.list], [args.target] and
    [args.name]; [nearby_devices] is what [discover_devices] returns. *)
Definition choose_action (list_flag : bool) (target name : option str)
    (nearby_devices : list (str * str)) : exn + action :=
  if list_flag then inr ListDevices
  else if truthy target then
    match target with
    | Some t => inr (Upload t)
    | None => inl ParserError
    end
  else if truthy name then
    match name with
    | Some n =>
        match find_device n nearby_devices with
        | inl e => inl e
        | inr addr => inr (Upload addr)
        end
    | None => inl ParserError
    end
  else inl ParserError.

(* ------------------------------------------------------------------ *)
(** ** The model on concrete inputs *)

Definition ascii_digits : bytes := [x31; x32; x33; x34; x35; x36; x37; x38; x39].

Example crc32_check_value : crc32 ascii_digits = 0xCBF43926.
Proof. vm_compute. reflexivity. Qed.

Example crc32_empty : crc32 [] = 0.
Proof. reflexivity. Qed.

Example prepare_10_4 :
  option_map (fun r => match r with
                       | inr (ps, n) => (map (fun p => length p) ps, n)
                       | inl _ => ([], -1)
                       end)
    (prepare_packets 5 4 ten_bytes)
  = Some ([10%nat; 10%nat; 8%nat], 28).
Proof. vm_compute. reflexivity. Qed.

(* ------------------------------------------------------------------ *)
(** ** Bytes and little-endian integers *)

Section LittleEndian.

Lemma Z_of_byte_range (b : byte) : 0 <= Z_of_byte b < 256.
Proof.
  unfold Z_of_byte. pose proof (Byte.to_N_bounded b). lia.
Qed.

Lemma Z_of_byte_of_Z (z : Z) : 0 <= z < 256 -> Z_of_byte (byte_of_Z z) = z.
Proof.
  intros Hz. unfold Z_of_byte, byte_of_Z.
  destruct (Byte.of_N (Z.to_N z)) as [b|] eqn:E.
  - apply Byte.to_of_N in E. rewrite E. lia.
  - apply Byte.of_N_None_iff in E. lia.
Qed.

Lemma length_le_digits (n : nat) (z : Z) : length (le_digits n z) = n.
Proof.
  revert z. induction n as [|n IH]; intros z; simpl; [reflexivity|].
  now rewrite IH.
Qed.

Lemma from_bytes_le_digits (n : nat) (z : Z) :
  0 <= z < 256 ^ Z.of_nat n -> from_bytes (le_digits n z) = z.
Proof.
  revert z. induction n as [|n IH]; intros z Hz.
  - simpl in *. lia.
  - cbn [le_digits from_bytes].
    rewrite Nat2Z.inj_succ, Z.pow_succ_r in Hz by lia.
    rewrite Z_of_byte_of_Z by (apply Z.mod_pos_bound; lia).
    rewrite IH.
    + pose proof (Z.div_mod z 256). lia.
    + split.
      * apply Z.div_pos; lia.
      * apply Z.div_lt_upper_bound; lia.
Qed.

Lemma to_bytes_ok (z : Z) (n : nat) :
  0 <= z < 256 ^ Z.of_nat n -> to_bytes z n = inr (le_digits n z).
Proof.
  intros Hz. unfold to_bytes.
  destruct (z <? 0) eqn:E1; [apply Z.ltb_lt in E1; lia|].
  destruct (256 ^ Z.of_nat n <=? z) eqn:E2; [apply Z.leb_le in E2; lia|].
  reflexivity.
Qed.

Lemma to_bytes_overflow (z : Z) (n : nat) :
  z < 0 \/ 256 ^ Z.of_nat n <= z -> to_bytes z n = inl OverflowError.
Proof.
  intros Hz. unfold to_bytes.
  destruct (z <? 0) eqn:E1; [reflexivity|].
  destruct (256 ^ Z.of_nat n <=? z) eqn:E2; [reflexivity|].
  apply Z.ltb_ge in E1. apply Z.leb_gt in E2. lia.
Qed.

Lemma to_bytes_inr (z : Z) (n : nat) (b : bytes) :
  to_bytes z n = inr b -> 0 <= z < 256 ^ Z.of_nat n /\ b = le_digits n z.
Proof.
  unfold to_bytes.
  destruct (z <? 0) eqn:E1; [discriminate|].
  destruct (256 ^ Z.of_nat n <=? z) eqn:E2; [discriminate|].
  apply Z.ltb_ge in E1. apply Z.leb_gt in E2.
  simpl. intros H. inversion H. split; [lia | reflexivity].
Qed.

End LittleEndian.

(* ------------------------------------------------------------------ *)
(** ** The checksum is a 32-bit value *)

Section Crc.

Lemma word32_lxor (a b : Z) : word32 a -> word32 b -> word32 (Z.lxor a b).
Proof.
  unfold word32. intros Ha Hb.
  assert (H0 : 0 <= Z.lxor a b) by (apply Z.lxor_nonneg; lia).
  split; [exact H0|].
  destruct (Z.eq_dec (Z.lxor a b) 0) as [E|E]; [rewrite E; lia|].
  apply Z.log2_lt_pow2; [lia|].
  pose proof (Z.log2_lxor a b (proj1 Ha) (proj1 Hb)) as Hl.
  assert (La : Z.log2 a < 32).
  { destruct (Z.eq_dec a 0) as [->|]; [simpl; lia|].
    apply Z.log2_lt_pow2; lia. }
  assert (Lb : Z.log2 b < 32).
  { destruct (Z.eq_dec b 0) as [->|]; [simpl; lia|].
    apply Z.log2_lt_pow2; lia. }
  lia.
Qed.

Lemma word32_shiftr (a : Z) : word32 a -> word32 (Z.shiftr a 1).
Proof.
  unfold word32. intros Ha.
  rewrite Z.shiftr_div_pow2 by lia. change (2 ^ 1) with 2.
  split.
  - apply Z.div_pos; lia.
  - apply Z.div_lt_upper_bound; lia.
Qed.

Lemma word32_byte (b : byte) : word32 (Z_of_byte b).
Proof.
  unfold word32. pose proof (Z_of_byte_range b). lia.
Qed.

Lemma word32_crc_shift (c : Z) : word32 c -> word32 (crc_shift c).
Proof.
  intros Hc. unfold crc_shift.
  destruct (Z.testbit c 0).
  - apply word32_lxor; [now apply word32_shiftr|].
    unfold word32, crc_poly. lia.
  - now apply word32_shiftr.
Qed.

Lemma word32_crc_byte (c : Z) (b : byte) : word32 c -> word32 (crc_byte c b).
Proof.
  intros Hc. unfold crc_byte.
  assert (H : word32 (Z.lxor c (Z_of_byte b))).
  { apply word32_lxor; [exact Hc | apply word32_byte]. }
  revert H. generalize (Z.lxor c (Z_of_byte b)) as x.
  intros x Hx. simpl. now repeat apply word32_crc_shift.
Qed.

Lemma word32_fold_crc (dat : bytes) (c : Z) :
  word32 c -> word32 (fold_left crc_byte dat c).
Proof.
  revert c. induction dat as [|b dat IH]; intros c Hc; simpl.
  - exact Hc.
  - apply IH. now apply word32_crc_byte.
Qed.

Lemma crc32_word32 (dat : bytes) : word32 (crc32 dat).
Proof.
  unfold crc32. apply word32_lxor.
  - apply word32_fold_crc. unfold word32, crc_mask. lia.
  - unfold word32, crc_mask. lia.
Qed.

End Crc.

(* ------------------------------------------------------------------ *)
(** ** One packet *)

Section Packet.

Lemma len_app (a b : bytes) : len (a ++ b) = len a + len b.
Proof. unfold len. rewrite length_app. lia. Qed.

Lemma len_nonneg (a : bytes) : 0 <= len a.
Proof. unfold len. lia. Qed.

Lemma len_packet_of (dat : bytes) : len (packet_of dat) = 6 + len dat.
Proof.
  unfold packet_of. rewrite !len_app. unfold len.
  rewrite !length_le_digits. lia.
Qed.

Lemma packet_payload_of (dat : bytes) : packet_payload (packet_of dat) = dat.
Proof. reflexivity. Qed.

Lemma packet_checksum_of (dat : bytes) :
  packet_checksum (packet_of dat) = crc32 dat.
Proof.
  unfold packet_checksum, packet_of.
  change (skipn 2 (le_digits 2 (len dat) ++ le_digits 4 (crc32 dat) ++ dat))
    with (le_digits 4 (crc32 dat) ++ dat).
  change (firstn 4 (le_digits 4 (crc32 dat) ++ dat))
    with (le_digits 4 (crc32 dat)).
  apply from_bytes_le_digits. exact (crc32_word32 dat).
Qed.

Lemma packet_length_of (dat : bytes) :
  len dat < 65536 -> packet_length (packet_of dat) = len dat.
Proof.
  intros H. unfold packet_length, packet_of.
  change (firstn 2 (le_digits 2 (len dat) ++ le_digits 4 (crc32 dat) ++ dat))
    with (le_digits 2 (len dat)).
  apply from_bytes_le_digits. pose proof (len_nonneg dat).
  change (256 ^ Z.of_nat 2) with 65536. lia.
Qed.

Lemma well_formed_packet_of (dat : bytes) :
  len dat < 65536 -> well_formed (packet_of dat).
Proof.
  intros H. unfold well_formed.
  rewrite packet_payload_of, packet_checksum_of, packet_length_of by exact H.
  repeat split; reflexivity.
Qed.

Lemma make_packet_ok (dat : bytes) :
  len dat < 65536 -> make_packet (len dat) dat = inr (packet_of dat).
Proof.
  intros H. unfold make_packet.
  rewrite (to_bytes_ok (crc32 dat) 4) by exact (crc32_word32 dat).
  rewrite (to_bytes_ok (len dat) 2).
  - reflexivity.
  - pose proof (len_nonneg dat). change (256 ^ Z.of_nat 2) with 65536. lia.
Qed.

Lemma make_packet_inr (n : Z) (dat pkt : bytes) :
  make_packet n dat = inr pkt ->
  0 <= n < 65536 /\ pkt = le_digits 2 n ++ le_digits 4 (crc32 dat) ++ dat.
Proof.
  unfold make_packet.
  rewrite (to_bytes_ok (crc32 dat) 4) by exact (crc32_word32 dat).
  destruct (to_bytes n 2) as [e|ds] eqn:E; [discriminate|].
  apply to_bytes_inr in E. destruct E as [Hn ->].
  intros H. inversion H. split; [exact Hn | reflexivity].
Qed.

Lemma make_packet_overflow (n : Z) (dat : bytes) :
  n < 0 \/ 65536 <= n -> make_packet n dat = inl OverflowError.
Proof.
  intros H. unfold make_packet.
  rewrite (to_bytes_ok (crc32 dat) 4) by exact (crc32_word32 dat).
  now rewrite to_bytes_overflow.
Qed.

End Packet.

(* ------------------------------------------------------------------ *)
(** ** The packet loop *)

Section PrepareLoop.

Lemma read_prefix (f : bytes) (n : Z) :
  0 <= n <= len f ->
  read f n = inr (firstn (Z.to_nat n) f, skipn (Z.to_nat n) f)
  /\ len (firstn (Z.to_nat n) f) = n
  /\ len (skipn (Z.to_nat n) f) = len f - n.
Proof.
  unfold len. intros Hn. unfold read.
  destruct (n <? -1) eqn:E'; [apply Z.ltb_lt in E'; lia|].
  destruct (n <? 0) eqn:E; [apply Z.ltb_lt in E; lia|].
  split; [reflexivity|].
  rewrite length_firstn, length_skipn. lia.
Qed.

Lemma total_len_app (a b : list bytes) :
  total_len (a ++ b) = total_len a + total_len b.
Proof.
  induction a as [|p a IH]; simpl; [reflexivity|]. rewrite IH. lia.
Qed.

Lemma total_len_packets (ds : list bytes) :
  total_len (map packet_of ds) = total_len ds + 6 * Z.of_nat (length ds).
Proof.
  induction ds as [|d ds IH]; [reflexivity|].
  cbn [map total_len length]. rewrite IH, len_packet_of. lia.
Qed.

Lemma firstn_all_min {A : Type} (c : nat) (l : list A) :
  firstn (Nat.min c (length l)) l = firstn c l.
Proof.
  destruct (Nat.le_gt_cases c (length l)) as [H|H].
  - now rewrite Nat.min_l.
  - rewrite Nat.min_r by lia. rewrite firstn_all.
    symmetry. apply firstn_all2. lia.
Qed.

Lemma skipn_all_min {A : Type} (c : nat) (l : list A) :
  skipn (Nat.min c (length l)) l = skipn c l.
Proof.
  destruct (Nat.le_gt_cases c (length l)) as [H|H].
  - now rewrite Nat.min_l.
  - rewrite Nat.min_r by lia. rewrite skipn_all.
    symmetry. apply skipn_all2. lia.
Qed.

(** The chunks do not depend on the fuel once there is enough of it. *)
Lemma chunks_fuel (c : nat) : (0 < c)%nat ->
  forall (fuel1 fuel2 : nat) (f : bytes),
    (length f <= fuel1)%nat -> (length f <= fuel2)%nat ->
    chunks fuel1 c f = chunks fuel2 c f.
Proof.
  intros Hc. induction fuel1 as [|fuel1 IH]; intros fuel2 f H1 H2.
  - destruct f; [|simpl in H1; lia]. destruct fuel2; reflexivity.
  - destruct f as [|b f]; [destruct fuel2; reflexivity|].
    destruct fuel2 as [|fuel2]; [simpl in H2; lia|].
    cbn [chunks]. f_equal.
    cbn [length] in H1, H2.
    apply IH; rewrite length_skipn; cbn [length]; lia.
Qed.

Lemma concat_chunks (c : nat) : (0 < c)%nat ->
  forall (fuel : nat) (f : bytes),
    (length f <= fuel)%nat -> concat (chunks fuel c f) = f.
Proof.
  intros Hc. induction fuel as [|fuel IH]; intros f Hf.
  - destruct f; [reflexivity | simpl in Hf; lia].
  - destruct f as [|b f]; [reflexivity|].
    cbn [chunks concat]. rewrite IH.
    + apply firstn_skipn.
    + rewrite length_skipn. cbn [length] in *. lia.
Qed.

Lemma total_len_concat (ds : list bytes) : total_len ds = len (concat ds).
Proof.
  induction ds as [|d ds IH]; [reflexivity|].
  cbn [total_len concat]. rewrite len_app, IH. reflexivity.
Qed.

Lemma chunks_bounds (c : nat) : (0 < c)%nat ->
  forall (fuel : nat) (f : bytes),
    Forall (fun d => (0 < length d <= c)%nat) (chunks fuel c f).
Proof.
  intros Hc. induction fuel as [|fuel IH]; intros f; [constructor|].
  destruct f as [|b f]; [constructor|].
  cbn [chunks]. constructor; [|apply IH].
  rewrite length_firstn. simpl length. lia.
Qed.

Lemma chunks_nonempty (c fuel : nat) (f : bytes) :
  f <> [] -> (0 < fuel)%nat -> chunks fuel c f <> [].
Proof.
  intros Hf Hfuel. destruct fuel; [lia|].
  destruct f; [congruence|]. discriminate.
Qed.

Lemma payloads_of_packets (ds : list bytes) :
  map packet_payload (map packet_of ds) = ds.
Proof.
  induction ds as [|d ds IH]; [reflexivity|].
  cbn [map]. rewrite IH, packet_payload_of. reflexivity.
Qed.

(** With a positive chunk size whose chunks fit the 2-byte length field
    the loop ends within [length f] rounds and appends the frame of
    every chunk. *)
Lemma prepare_loop_chunks (c : Z) : 0 < c ->
  forall (fuel : nat) (f : bytes) (result : list bytes) (full : Z),
    Z.min c (len f) < 65536 ->
    (length f <= fuel)%nat ->
    prepare_loop fuel c (len f) f result full =
    Some (inr (result ++ map packet_of (chunks fuel (Z.to_nat c) f),
               full + total_len (map packet_of (chunks fuel (Z.to_nat c) f)))).
Proof.
  intros Hc. induction fuel as [|fuel IH]; intros f result full Hmin Hfuel.
  - destruct f; [|simpl in Hfuel; lia].
    simpl. rewrite app_nil_r, Z.add_0_r. reflexivity.
  - destruct f as [|b f].
    + simpl. rewrite app_nil_r, Z.add_0_r. reflexivity.
    + remember (b :: f) as g eqn:Eg.
      assert (Hg : 0 < len g) by (subst g; unfold len; simpl length; lia).
      cbn [prepare_loop].
      destruct (len g >? 0) eqn:E; [|rewrite Z.gtb_ltb in E; apply Z.ltb_ge in E; lia].
      clear E.
      destruct (read_prefix g (Z.min c (len g))) as (Hr & Hl & Hs); [lia|].
      rewrite Hr.
      assert (Hk : Z.to_nat (Z.min c (len g))
                   = Nat.min (Z.to_nat c) (length g)) by (unfold len; lia).
      rewrite Hk in *. rewrite firstn_all_min, skipn_all_min in *.
      rewrite <- Hl at 1. rewrite make_packet_ok by lia.
      rewrite <- Hs. rewrite IH.
      * assert (Hch : chunks (S fuel) (Z.to_nat c) g
                      = firstn (Z.to_nat c) g
                        :: chunks fuel (Z.to_nat c) (skipn (Z.to_nat c) g))
          by (subst g; reflexivity).
        rewrite Hch. cbn [map total_len].
        rewrite <- app_assoc. cbn [app]. do 3 f_equal. lia.
      * lia.
      * unfold len in *. rewrite length_skipn in *. lia.
Qed.

(** Whatever the chunk size, the frames of a loop that returns are well
    formed, and [full_size] has grown by their total length. *)
Lemma prepare_loop_inr :
  forall (fuel : nat) (c : Z) (f : bytes) (result : list bytes) (full : Z)
         (ps : list bytes) (n : Z),
    prepare_loop fuel c (len f) f result full = Some (inr (ps, n)) ->
    exists new,
      ps = result ++ new /\ Forall well_formed new /\ n = full + total_len new.
Proof.
  induction fuel as [|fuel IH]; intros c f result full ps n H.
  - cbn [prepare_loop] in H.
    destruct (len f >? 0); [discriminate|].
    inversion H; subst. exists []. rewrite app_nil_r.
    repeat split; [constructor | simpl; lia].
  - cbn [prepare_loop] in H.
    destruct (len f >? 0) eqn:E.
    + rewrite Z.gtb_ltb in E; apply Z.ltb_lt in E.
      destruct (read f (Z.min c (len f))) as [e|[dat f']] eqn:Er;
        [discriminate|].
      destruct (make_packet (Z.min c (len f)) dat) as [e|pkt] eqn:Em;
        [discriminate|].
      apply make_packet_inr in Em. destruct Em as [Hn Hpkt].
      destruct (read_prefix f (Z.min c (len f))) as (Hr & Hl & Hs); [lia|].
      rewrite Hr in Er. inversion Er; subst dat f'. clear Er.
      rewrite <- Hs in H. apply IH in H.
      destruct H as (new & -> & Hwf & ->).
      rewrite <- Hl in Hpkt at 1. fold (packet_of (firstn (Z.to_nat (Z.min c (len f))) f)) in Hpkt.
      exists (pkt :: new). rewrite <- app_assoc. cbn [app total_len].
      repeat split.
      * constructor; [|exact Hwf]. subst pkt.
        apply well_formed_packet_of. lia.
      * lia.
    + inversion H; subst. exists []. rewrite app_nil_r.
      repeat split; [constructor | simpl; lia].
Qed.

(** More fuel does not change the result of a loop that returns. *)
Lemma prepare_loop_mono :
  forall (fuel : nat) (c size : Z) (f : bytes) (result : list bytes)
         (full : Z) (r : exn + (list bytes * Z)),
    prepare_loop fuel c size f result full = Some r ->
    forall fuel', (fuel <= fuel')%nat ->
      prepare_loop fuel' c size f result full = Some r.
Proof.
  induction fuel as [|fuel IH]; intros c size f result full r H fuel' Hle.
  - cbn [prepare_loop] in H.
    destruct (size >? 0) eqn:E; [discriminate|].
    destruct fuel'; cbn [prepare_loop]; rewrite E; exact H.
  - destruct fuel' as [|fuel']; [lia|].
    cbn [prepare_loop] in *.
    destruct (size >? 0); [|exact H].
    destruct (read f (Z.min c size)) as [e|[dat f']]; [exact H|].
    destruct (make_packet (Z.min c size) dat); [exact H|].
    apply IH with (fuel' := fuel') in H; [exact H | lia].
Qed.

(** With chunk size 0 and bytes left to send the loop never ends. *)
Lemma prepare_loop_zero :
  forall (fuel : nat) (size : Z) (f : bytes) (result : list bytes) (full : Z),
    0 < size -> prepare_loop fuel 0 size f result full = None.
Proof.
  induction fuel as [|fuel IH]; intros size f result full Hs.
  - cbn [prepare_loop].
    destruct (size >? 0) eqn:E; [reflexivity|].
    rewrite Z.gtb_ltb in E; apply Z.ltb_ge in E. lia.
  - cbn [prepare_loop].
    destruct (size >? 0) eqn:E; [|rewrite Z.gtb_ltb in E; apply Z.ltb_ge in E; lia].
    rewrite Z.min_l by lia.
    change (read f 0) with (@inr exn (bytes * bytes) (@nil byte, f)).
    cbn iota.
    change (make_packet 0 []) with (@inr exn bytes (packet_of [])).
    cbn iota. rewrite Z.sub_0_r. now apply IH.
Qed.

End PrepareLoop.

(* ------------------------------------------------------------------ *)
(** ** One packet on the wire *)

Section SendPacket.

Lemma bytes_eqb_single (a b : byte) :
  bytes_eqb [a] [b] = true <-> a = b.
Proof.
  unfold bytes_eqb.
  destruct (list_eq_dec Byte.byte_eq_dec [a] [b]) as [E|E]; split; intros H.
  - now inversion E.
  - reflexivity.
  - discriminate.
  - subst. congruence.
Qed.

Lemma bytes_eqb_other (b : byte) :
  other b -> bytes_eqb [b] PKG_ACK = false /\ bytes_eqb [b] PKG_PAN = false.
Proof.
  intros [H1 H2]. unfold PKG_ACK, PKG_PAN. split.
  - destruct (bytes_eqb [b] [xff]) eqn:E; [|reflexivity].
    apply bytes_eqb_single in E. contradiction.
  - destruct (bytes_eqb [b] [xaa]) eqn:E; [|reflexivity].
    apply bytes_eqb_single in E. contradiction.
Qed.

(** One round of the loop when the device answers with a byte. *)
Lemma send_packet_loop_reply (n : nat) (p : bytes) (log : list bytes)
    (b : byte) (rest : list event) :
  send_packet_loop (S n) p (mkSocket log (Reply b :: rest)) =
  if bytes_eqb [b] PKG_ACK then (inr true, mkSocket (log ++ [p]) rest)
  else if bytes_eqb [b] PKG_PAN then (inr false, mkSocket (log ++ [p]) rest)
  else send_packet_loop n p (mkSocket (log ++ [p]) rest).
Proof.
  cbn [send_packet_loop]. unfold bind, send, recv1. cbn [incoming sent].
  destruct (bytes_eqb [b] PKG_ACK); [reflexivity|].
  destruct (bytes_eqb [b] PKG_PAN); reflexivity.
Qed.

(** One round of the loop when the read times out. *)
Lemma send_packet_loop_timeout (n : nat) (p : bytes) (log : list bytes)
    (rest : list event) :
  send_packet_loop (S n) p (mkSocket log (Timeout :: rest)) =
  (inl BluetoothError, mkSocket (log ++ [p]) rest).
Proof. reflexivity. Qed.

Lemma send_packet_loop_silence (n : nat) (p : bytes) (log : list bytes) :
  send_packet_loop (S n) p (mkSocket log []) =
  (inl BluetoothError, mkSocket (log ++ [p]) []).
Proof. reflexivity. Qed.

Lemma log_repeat_snoc (p : bytes) (log : list bytes) (k : nat) :
  (log ++ [p]) ++ repeat p k = log ++ repeat p (S k).
Proof. rewrite <- app_assoc. reflexivity. Qed.

(** Rounds answered with bytes that are neither ACK nor NACK_ABORT
    each resend the packet and use up one attempt. *)
Lemma send_packet_loop_others (p : bytes) :
  forall (bs : list byte) (n : nat) (log : list bytes) (rest : list event),
    Forall other bs ->
    send_packet_loop (length bs + n) p (mkSocket log (map Reply bs ++ rest)) =
    send_packet_loop n p (mkSocket (log ++ repeat p (length bs)) rest).
Proof.
  induction bs as [|b bs IH]; intros n log rest Hbs.
  - cbn [length map app repeat Nat.add]. now rewrite app_nil_r.
  - inversion Hbs as [|? ? Hb Hbs']; subst.
    cbn [length map app Nat.add]. rewrite send_packet_loop_reply.
    destruct (bytes_eqb_other b Hb) as [-> ->].
    rewrite IH by exact Hbs'. now rewrite log_repeat_snoc.
Qed.

Lemma send_packet_loop_exhausted (p : bytes) (bs : list byte)
    (log : list bytes) (rest : list event) :
  Forall other bs ->
  send_packet_loop (length bs) p (mkSocket log (map Reply bs ++ rest)) =
  (inr false, mkSocket (log ++ repeat p (length bs) ++ [UPD_ERR]) rest).
Proof.
  intros Hbs. rewrite <- (Nat.add_0_r (length bs)) at 1.
  rewrite send_packet_loop_others by exact Hbs.
  cbn. now rewrite <- app_assoc.
Qed.

Lemma send_packet_loop_ack (p : bytes) (bs : list byte) (n : nat)
    (log : list bytes) (rest : list event) :
  Forall other bs -> (length bs < n)%nat ->
  send_packet_loop n p (mkSocket log (map Reply bs ++ Reply xff :: rest)) =
  (inr true, mkSocket (log ++ repeat p (S (length bs))) rest).
Proof.
  intros Hbs Hlt.
  replace n with (length bs + S (n - S (length bs)))%nat by lia.
  rewrite send_packet_loop_others by exact Hbs.
  rewrite send_packet_loop_reply, <- app_assoc, <- repeat_cons.
  reflexivity.
Qed.

Lemma send_packet_loop_abort (p : bytes) (bs : list byte) (n : nat)
    (log : list bytes) (rest : list event) :
  Forall other bs -> (length bs < n)%nat ->
  send_packet_loop n p (mkSocket log (map Reply bs ++ Reply xaa :: rest)) =
  (inr false, mkSocket (log ++ repeat p (S (length bs))) rest).
Proof.
  intros Hbs Hlt.
  replace n with (length bs + S (n - S (length bs)))%nat by lia.
  rewrite send_packet_loop_others by exact Hbs.
  rewrite send_packet_loop_reply, <- app_assoc, <- repeat_cons.
  reflexivity.
Qed.

Lemma send_packet_loop_timed_out (p : bytes) (bs : list byte) (n : nat)
    (log : list bytes) (rest : list event) :
  Forall other bs -> (length bs < n)%nat ->
  send_packet_loop n p (mkSocket log (map Reply bs ++ Timeout :: rest)) =
  (inl BluetoothError, mkSocket (log ++ repeat p (S (length bs))) rest).
Proof.
  intros Hbs Hlt.
  replace n with (length bs + S (n - S (length bs)))%nat by lia.
  rewrite send_packet_loop_others by exact Hbs.
  rewrite send_packet_loop_timeout, <- app_assoc, <- repeat_cons.
  reflexivity.
Qed.

(** However the device answers, the packet goes out at most [n] times,
    and the ERROR byte follows only after [n] fruitless rounds. *)
Lemma send_packet_loop_bound (p : bytes) :
  forall (n : nat) (s : socket),
  exists (k : nat) (tail : list bytes),
    (k <= n)%nat
    /\ sent (snd (send_packet_loop n p s)) = sent s ++ repeat p k ++ tail
    /\ (tail = []
        \/ tail = [UPD_ERR] /\ k = n
           /\ fst (send_packet_loop n p s) = inr false).
Proof.
  induction n as [|n IH]; intros [log script].
  - exists 0%nat, [UPD_ERR]. cbn. repeat split; auto.
  - destruct script as [|[b|] rest].
    + rewrite send_packet_loop_silence. exists 1%nat, []. cbn.
      repeat split; [lia | auto].
    + rewrite send_packet_loop_reply.
      destruct (bytes_eqb [b] PKG_ACK);
        [exists 1%nat, []; cbn; repeat split; [lia | auto]|].
      destruct (bytes_eqb [b] PKG_PAN);
        [exists 1%nat, []; cbn; repeat split; [lia | auto]|].
      destruct (IH (mkSocket (log ++ [p]) rest)) as (k & tail & Hk & Hs & Ht).
      exists (S k), tail. cbn [sent] in *. rewrite Hs.
      split; [lia|]. split; [now rewrite <- app_assoc|].
      destruct Ht as [Ht | (Ht & Hkn & Hf)]; [now left|].
      right. repeat split; [exact Ht | lia | exact Hf].
    + rewrite send_packet_loop_timeout. exists 1%nat, []. cbn.
      repeat split; [lia | auto].
Qed.

End SendPacket.

(* ------------------------------------------------------------------ *)
(** ** The session *)

Section Session.

Variable attempts_ : Z.

Lemma sending_packets_cons (i total : nat) (p : bytes) (ps : list bytes)
    (s : socket) :
  sending_packets attempts_ i total (p :: ps) s =
  match send_packet attempts_ p s with
  | (inl e, s') => (inl e, s')
  | (inr true, s') => sending_packets attempts_ (S i) total ps s'
  | (inr false, s') => (inl (PacketSendError (i + 1) total), s')
  end.
Proof.
  cbn [sending_packets]. unfold bind.
  destruct (send_packet attempts_ p s) as [[e|[|]] s']; reflexivity.
Qed.

(** The loop over [pre ++ ps] is the loop over [ps] once the packets
    of [pre] have all been acknowledged. *)
Lemma sending_packets_app (total : nat) (ps : list bytes) :
  forall (pre : list bytes) (i : nat) (s s1 : socket),
    sending_packets attempts_ i total pre s = (inr tt, s1) ->
    sending_packets attempts_ i total (pre ++ ps) s =
    sending_packets attempts_ (i + length pre) total ps s1.
Proof.
  induction pre as [|p pre IH]; intros i s s1 H.
  - cbn in H. inversion H; subst. cbn [app length].
    now rewrite Nat.add_0_r.
  - cbn [app length]. rewrite sending_packets_cons in *.
    destruct (send_packet attempts_ p s) as [[e|[|]] s']; try discriminate.
    rewrite (IH (S i) s' s1 H). f_equal. lia.
Qed.

(** A device that acknowledges every packet at once. *)
Lemma sending_packets_acked (total : nat) : 0 < attempts_ ->
  forall (ps : list bytes) (i : nat) (log : list bytes) (rest : list event),
    sending_packets attempts_ i total ps
      (mkSocket log (repeat (Reply xff) (length ps) ++ rest)) =
    (inr tt, mkSocket (log ++ ps) rest).
Proof.
  intros HN. induction ps as [|p ps IH]; intros i log rest.
  - cbn. now rewrite app_nil_r.
  - cbn [length repeat app]. rewrite sending_packets_cons.
    unfold send_packet.
    pose proof (send_packet_loop_ack p [] (Z.to_nat attempts_) log
                  (repeat (Reply xff) (length ps) ++ rest)) as Hack.
    cbn [map app length repeat] in Hack.
    rewrite Hack by (constructor || lia).
    rewrite IH. now rewrite <- app_assoc.
Qed.

Lemma starting_transaction_ok (log : list bytes) (a : byte)
    (rest : list event) :
  starting_transaction (mkSocket log (Reply a :: Reply xff :: rest)) =
  (inr tt, mkSocket (log ++ [firmware_update; UPD_BEG]) rest).
Proof.
  unfold starting_transaction, bind, send, recv1. cbn.
  now rewrite <- app_assoc.
Qed.

Lemma ending_transaction_ok (log : list bytes) (rest : list event) :
  ending_transaction (mkSocket log (Reply xff :: rest)) =
  (inr tt, mkSocket (log ++ [UPD_END]) rest).
Proof. reflexivity. Qed.

(** A failure while sending ends the transaction where it happens. *)
Lemma transaction_fails_sending (ps : list bytes) (full_time : Q)
    (s sa sb : socket) (e : exn) :
  starting_transaction s = (inr tt, sa) ->
  sending_packets attempts_ 0 (length ps) ps sa = (inl e, sb) ->
  transaction attempts_ ps full_time s = (inl e, sb).
Proof.
  intros Hs Hp. unfold transaction, bind. now rewrite Hs, Hp.
Qed.

Lemma transaction_acked (ps : list bytes) (full_time : Q)
    (log : list bytes) (a : byte) (rest : list event) :
  0 < attempts_ -> ~ (full_time == 0)%Q ->
  transaction attempts_ ps full_time
    (mkSocket log (Reply a :: Reply xff
                     :: repeat (Reply xff) (length ps) ++ Reply xff :: rest)) =
  (inr tt,
   mkSocket (log ++ [firmware_update; UPD_BEG] ++ ps ++ [UPD_END]) rest).
Proof.
  intros HN Ht. unfold transaction, bind.
  rewrite starting_transaction_ok, sending_packets_acked by exact HN.
  unfold average_speed.
  destruct (Qeq_bool full_time 0) eqn:E;
    [apply Qeq_bool_iff in E; contradiction|].
  unfold ret. rewrite ending_transaction_ok.
  now rewrite <- !app_assoc.
Qed.

End Session.

(* ------------------------------------------------------------------ *)
(** ** Frame building *)

Section FrameBuilding.

(** With a positive chunk size whose chunks fit the length field,
    [prepare_packets] computes [build_frames], and [full_size] counts
    the source plus six header bytes per frame. *)
Lemma prepare_packets_build_frames (c : Z) (source : bytes) (fuel : nat) :
  0 < c -> Z.min c (len source) < 65536 -> (length source <= fuel)%nat ->
  prepare_packets fuel c source =
  Some (inr (build_frames c source,
             len source + 6 * Z.of_nat (length (build_frames c source)))).
Proof.
  intros Hc Hmin Hfuel. unfold prepare_packets, build_frames.
  rewrite prepare_loop_chunks by assumption.
  rewrite (chunks_fuel (Z.to_nat c) ltac:(lia) fuel (length source) source)
    by lia.
  cbn [app]. rewrite total_len_packets, total_len_concat.
  rewrite concat_chunks by lia.
  rewrite length_map. reflexivity.
Qed.

Lemma payloads_build_frames (c : Z) (source : bytes) :
  0 < c -> concat (map packet_payload (build_frames c source)) = source.
Proof.
  intros Hc. unfold build_frames.
  rewrite payloads_of_packets. apply concat_chunks; lia.
Qed.

(** C1: for every non-empty source and every chunk payload size c > 0
    (a size that fits the frame's 2-byte length field, or any size when
    the source itself is shorter than 65536 bytes), [prepare_packets]
    returns, given fuel for the source, a non-empty frame sequence that
    covers the source exactly once in order: the payload lengths add up
    to the source length, and the payloads concatenated in frame order
    are the source. *)
Theorem prepare_packets_round_trip (c : Z) (source : bytes) (fuel : nat) :
  source <> [] -> 0 < c -> Z.min c (len source) < 65536 ->
  (length source <= fuel)%nat ->
  exists (ps : list bytes) (n : Z),
    prepare_packets fuel c source = Some (inr (ps, n))
    /\ ps <> []
    /\ total_len (map packet_payload ps) = len source
    /\ concat (map packet_payload ps) = source.
Proof.
  intros Hne Hc Hmin Hfuel.
  exists (build_frames c source),
         (len source + 6 * Z.of_nat (length (build_frames c source))).
  split; [now apply prepare_packets_build_frames|].
  split.
  - unfold build_frames. intros E. apply map_eq_nil in E.
    revert E. apply chunks_nonempty; [exact Hne|].
    destruct source; [congruence | simpl; lia].
  - rewrite total_len_concat, payloads_build_frames by exact Hc.
    split; reflexivity.
Qed.

Lemma prepare_packets_round_trip_witness :
  exists (ps : list bytes) (n : Z),
    prepare_packets 10 4 ten_bytes = Some (inr (ps, n))
    /\ ps <> []
    /\ total_len (map packet_payload ps) = len ten_bytes
    /\ concat (map packet_payload ps) = ten_bytes.
Proof.
  apply (prepare_packets_round_trip 4 ten_bytes 10).
  - discriminate.
  - lia.
  - vm_compute. reflexivity.
  - simpl. lia.
Defined.

(** C8: every frame that [prepare_packets] returns is laid out as the
    2-byte little-endian payload length, the 4-byte little-endian
    CRC-32 of the payload, then the payload; the stored length is the
    payload's length, and the CRC-32 recomputed over the payload is the
    stored checksum. *)
Theorem prepare_packets_well_formed (fuel : nat) (c : Z) (source : bytes)
    (ps : list bytes) (n : Z) :
  prepare_packets fuel c source = Some (inr (ps, n)) ->
  Forall well_formed ps.
Proof.
  unfold prepare_packets. intros H.
  apply prepare_loop_inr in H. destruct H as (new & -> & Hwf & _).
  exact Hwf.
Qed.

Lemma prepare_packets_well_formed_witness :
  prepare_packets 3 4 ten_bytes = Some (inr ([frame_0; frame_1; frame_2], 28))
  /\ Forall well_formed [frame_0; frame_1; frame_2].
Proof.
  assert (H : prepare_packets 3 4 ten_bytes
              = Some (inr ([frame_0; frame_1; frame_2], 28)))
    by (vm_compute; reflexivity).
  split; [exact H|].
  exact (prepare_packets_well_formed 3 4 ten_bytes _ 28 H).
Defined.

(** An empty file needs no round of the loop. *)
Lemma prepare_packets_empty_returns :
  prepare_packets 0 4 [] = Some (inr ([], 0)).
Proof. reflexivity. Qed.

(** C4, as the code has it: on a source of zero bytes frame building
    raises no error; whatever the chunk payload size (0 included) it
    returns the empty frame sequence and leaves [full_size] at 0. *)
Theorem prepare_packets_empty (fuel : nat) (c : Z) :
  prepare_packets fuel c [] = Some (inr ([], 0)).
Proof. destruct fuel; reflexivity. Qed.

End FrameBuilding.

(* ------------------------------------------------------------------ *)
(** ** The progress display *)

Section Terminal.

Variable N : Z.

Lemma displays_terminal_80 (n : nat) : displays terminal_80 n.
Proof. split; [discriminate | reflexivity]. Qed.

(** Where the progress display works it changes nothing in the
    session. *)
Lemma sending_packets_on_displays (con : console) (total : nat) :
  forall (ps : list bytes) (i : nat) (s : socket),
    displays con (i + length ps) ->
    sending_packets_on con N i total ps s = sending_packets N i total ps s.
Proof.
  induction ps as [|p ps IH]; intros i s Hd; [reflexivity|].
  rewrite sending_packets_cons. cbn [sending_packets_on].
  destruct Hd as [Ht Hdraw].
  unfold progress, get_terminal_size, bind, ret.
  destruct (terminal con) as [columns|] eqn:E; [|congruence].
  rewrite Hdraw by (cbn [length]; lia).
  destruct (send_packet N p s) as [[e|[|]] s']; cbn [negb];
    [reflexivity | | reflexivity].
  apply IH. split; [congruence|].
  intros c Hc. apply Hdraw. cbn [length]. lia.
Qed.

Lemma transaction_on_displays (con : console) (ps : list bytes)
    (full_time : Q) (s : socket) :
  displays con (length ps) ->
  transaction_on con N ps full_time s = transaction N ps full_time s.
Proof.
  intros Hd. unfold transaction_on, transaction, bind.
  destruct (starting_transaction s) as [[e|[]] sa]; [reflexivity|].
  now rewrite sending_packets_on_displays.
Qed.

(** Where the standard output is not a terminal it raises before the
    first packet is sent. *)
Lemma sending_packets_on_no_terminal (con : console) (i total : nat)
    (p : bytes) (ps : list bytes) (s : socket) :
  terminal con = None ->
  sending_packets_on con N i total (p :: ps) s = (inl OSError, s).
Proof.
  intros E. cbn [sending_packets_on].
  unfold progress, get_terminal_size, bind. now rewrite E.
Qed.

End Terminal.

Lemma upload_firmware_on_displays (con : console) (fuel : nat)
    (full_time : Q) (self : FirmwareUpdater) (ps : list bytes) (n : Z) :
  prepare_packets fuel (packsize self) (file self) = Some (inr (ps, n)) ->
  displays con (length ps) ->
  upload_firmware_on con fuel full_time self =
  upload_firmware fuel full_time self.
Proof.
  intros Hprep Hd. unfold upload_firmware_on, upload_firmware.
  rewrite Hprep. now rewrite transaction_on_displays.
Qed.

(* ------------------------------------------------------------------ *)
(** ** Whole sessions *)

Section Scenarios.

Lemma build_frames_ten (source : bytes) :
  length source = 10%nat ->
  exists d0 d1 d2,
    build_frames 4 source = [packet_of d0; packet_of d1; packet_of d2]
    /\ len d0 = 4 /\ len d1 = 4 /\ len d2 = 2.
Proof.
  intros H.
  do 10 (destruct source as [|? source]; [discriminate H|]).
  destruct source; [|discriminate H].
  do 3 eexists. split; [reflexivity|]. repeat split.
Qed.

(** In scenario A, on a terminal on which the progress lines are
    drawn, the run completes and [full_size] is 28, not 10; with the
    standard output not a terminal the same run ends after the
    handshake, when the progress display asks for the size of the
    terminal. *)
Lemma scenario_A_full_size :
  observe (upload_firmware_on terminal_80 3 1 scenario_A)
  = Some (inr tt, 28,
          [firmware_update; UPD_BEG; frame_0; frame_1; frame_2; UPD_END])
  /\ observe (upload_firmware_on terminal_80 3 1 scenario_A)
     <> Some (inr tt, len ten_bytes,
              [firmware_update; UPD_BEG; frame_0; frame_1; frame_2; UPD_END])
  /\ observe (upload_firmware_on not_a_terminal 3 1 scenario_A)
     = Some (inl OSError, 28, [firmware_update; UPD_BEG]).
Proof.
  split; [vm_compute; reflexivity|]. split.
  - vm_compute. discriminate.
  - vm_compute. reflexivity.
Qed.

(** C5, as the code has it: for a 10-byte source and chunk payload
    size 4, frame building yields frames of payload lengths 4, 4, 2,
    and a session in which the device answers ACK to everything ends
    normally, having sent the announcement, BEGIN, the three frames and
    END, with [full_size] equal to 28: the bytes of the three frames,
    headers included (10 + 3 * 6), not the 10 bytes of the firmware.
    Two things outside the protocol have to hold for the normal end:
    the progress display, which comes before every frame, works (the
    standard output is a terminal, whose size it asks for, and its
    three lines are drawn), and the measured transfer time is not
    zero, since the report of the average speed divides by it. *)
Theorem upload_ten_bytes_acked (self : FirmwareUpdater) (con : console)
    (fuel : nat) (full_time : Q) (log : list bytes) (rest : list event) :
  length (file self) = 10%nat ->
  packsize self = 4 ->
  0 < attempts self ->
  sock self = mkSocket log (repeat (Reply xff) 6 ++ rest) ->
  (10 <= fuel)%nat ->
  displays con 3 ->
  ~ (full_time == 0)%Q ->
  exists ps : list bytes,
    map (fun p => len (packet_payload p)) ps = [4; 4; 2]
    /\ prepare_packets fuel 4 (file self) = Some (inr (ps, 28))
    /\ upload_firmware_on con fuel full_time self =
       Some (inr tt,
             mkFirmwareUpdater (file self) (timeout self) 4 (attempts self)
               (verbose self)
               (mkSocket (log ++ [firmware_update; UPD_BEG] ++ ps ++ [UPD_END])
                  rest)
               28 ps).
Proof.
  intros Hlen Hc HN Hsock Hfuel Hd Ht.
  destruct (build_frames_ten (file self) Hlen)
    as (d0 & d1 & d2 & Hps & H0 & H1 & H2).
  assert (Hprep : prepare_packets fuel 4 (file self)
                  = Some (inr ([packet_of d0; packet_of d1; packet_of d2], 28))).
  { rewrite prepare_packets_build_frames; [| lia | unfold len; lia | lia].
    rewrite Hps. unfold len. rewrite Hlen. reflexivity. }
  exists [packet_of d0; packet_of d1; packet_of d2].
  split; [cbn [map]; rewrite !packet_payload_of, H0, H1, H2; reflexivity|].
  split; [exact Hprep|].
  rewrite (upload_firmware_on_displays con fuel full_time self
             [packet_of d0; packet_of d1; packet_of d2] 28)
    by (rewrite ?Hc; assumption).
  unfold upload_firmware. rewrite Hc, Hprep, Hsock.
  pose proof (transaction_acked (attempts self)
                [packet_of d0; packet_of d1; packet_of d2]
                full_time log xff rest HN Ht) as Htr.
  cbn [length repeat app] in Htr |- *. rewrite Htr. reflexivity.
Qed.

Lemma upload_ten_bytes_acked_witness :
  exists ps : list bytes,
    map (fun p => len (packet_payload p)) ps = [4; 4; 2]
    /\ prepare_packets 10 4 (file scenario_A) = Some (inr (ps, 28))
    /\ upload_firmware_on terminal_80 10 1 scenario_A =
       Some (inr tt,
             mkFirmwareUpdater (file scenario_A) (timeout scenario_A) 4
               (attempts scenario_A) (verbose scenario_A)
               (mkSocket ([] ++ [firmware_update; UPD_BEG] ++ ps ++ [UPD_END])
                  [])
               28 ps).
Proof.
  apply (upload_ten_bytes_acked scenario_A terminal_80 10 1 [] []).
  - reflexivity.
  - reflexivity.
  - simpl. lia.
  - reflexivity.
  - lia.
  - split; [discriminate | reflexivity].
  - discriminate.
Defined.

End Scenarios.

(* ------------------------------------------------------------------ *)
(** ** The command line *)

Section CommandLine.

Lemma check_size_accepts (size : Z) :
  1 <= size <= 512 -> check_size size = inr size.
Proof.
  intros H. unfold check_size.
  destruct (size <=? 0) eqn:E1; [apply Z.leb_le in E1; lia|].
  destruct (size >? 512) eqn:E2;
    [rewrite Z.gtb_ltb in E2; apply Z.ltb_lt in E2; lia|].
  reflexivity.
Qed.

Lemma check_size_rejects (size : Z) :
  size < 1 \/ 512 < size -> check_size size = inl ParserError.
Proof.
  intros H. unfold check_size.
  destruct (size <=? 0) eqn:E1; [reflexivity|].
  destruct (size >? 512) eqn:E2; [reflexivity|].
  apply Z.leb_gt in E1. rewrite Z.gtb_ltb in E2. apply Z.ltb_ge in E2. lia.
Qed.

(** An accepted packet size gives the updater a chunk payload size six
    bytes smaller, whatever is left. *)
Lemma main_updater_packsize (size : Z) (a : option Z) (v : Z)
    (contents : bytes) (s : socket) :
  1 <= size <= 512 ->
  main_updater (mkArgv a (Some size) v) contents (Some s) =
  inr (mkFirmwareUpdater contents 1 (size - 6) 3 v s 0 []).
Proof.
  intros H. unfold main_updater, parse_args. cbn [opt_packsize].
  rewrite check_size_accepts by exact H.
  unfold init, pop, CRC_SIZE, PKG_SIZE.
  cbn [ns_packsize ns_verbose kw_timeout kw_packsize kw_attempts kw_verbose].
  replace (size - 4 - 2) with (size - 6) by lia. reflexivity.
Qed.

(** C9, at the failing input [--packsize 6]: the size passes
    [check_size], the chunk payload size derived from it is 0, and on
    the non-empty file [ten_bytes] the packet loop is still running
    whatever fuel it is given: [main] never gets to the transfer. *)
Theorem packsize_6_never_returns (fuel : nat) (full_time : Q)
    (a : option Z) (v : Z) (s : socket) :
  check_size 6 = inr 6
  /\ option_map packsize
       (match main_updater (mkArgv a (Some 6) v) ten_bytes (Some s) with
        | inr fu => Some fu
        | inl _ => None
        end) = Some 0
  /\ main fuel full_time (mkArgv a (Some 6) v) ten_bytes (Some s) = None.
Proof.
  split; [reflexivity|]. split.
  - rewrite main_updater_packsize by lia. reflexivity.
  - unfold main. rewrite main_updater_packsize by lia.
    unfold upload_firmware, prepare_packets. cbn [packsize file].
    change (6 - 6) with 0.
    rewrite prepare_loop_zero; [reflexivity | unfold len; simpl; lia].
Qed.

(** Packet sizes 1 to 5 pass [check_size] too; the negative chunk
    payload size then is refused by [f.read], or, for [-1], does not
    fit the length field of the first packet. *)
Lemma packsize_below_6_raises (fuel : nat) (full_time : Q) (size : Z)
    (a : option Z) (v : Z) (s : socket) :
  1 <= size <= 5 ->
  option_map fst
    (main (S fuel) full_time (mkArgv a (Some size) v) ten_bytes (Some s))
  = Some (inl (if size =? 5 then OverflowError else ValueError)).
Proof.
  intros H. unfold main. rewrite main_updater_packsize by lia.
  unfold upload_firmware, prepare_packets. cbn [packsize file].
  cbn [prepare_loop]. change (len ten_bytes) with 10. cbn [Z.gtb Z.compare].
  rewrite Z.min_l by lia.
  destruct (size =? 5) eqn:E.
  - apply Z.eqb_eq in E. subst size. reflexivity.
  - apply Z.eqb_neq in E. unfold read.
    destruct (size - 6 <? -1) eqn:E'; [reflexivity|].
    apply Z.ltb_ge in E'. lia.
Qed.

(** C10, at the failing input [--attemtps 5]: whatever value the
    attempts option is given, the updater that [main] constructs has
    [attempts = 3], and a frame that the device keeps answering with
    NACK_RETRY is sent 3 times, not 5, before the run fails. *)
Theorem attemtps_option_ignored (A v : Z) (contents : bytes) (s : socket) :
  option_map attempts
    (match main_updater (mkArgv (Some A) None v) contents (Some s) with
     | inr fu => Some fu
     | inl _ => None
     end) = Some 3
  /\ observe
       (match main 3 1 (mkArgv (Some 5) (Some 10) 0) ten_bytes
                (Some (mkSocket [] (repeat (Reply xff) 2
                                      ++ repeat (Reply xee) 5))) with
        | Some (r, Some fu) => Some (r, fu)
        | _ => None
        end)
     = Some (inl (PacketSendError 1 3), 28,
             [firmware_update; UPD_BEG; frame_0; frame_0; frame_0; UPD_ERR]).
Proof.
  split.
  - reflexivity.
  - vm_compute. reflexivity.
Qed.

End CommandLine.

(* ------------------------------------------------------------------ *)
(** ** The retry protocol *)

Section RetryProtocol.

Variable N : Z.

(** A frame that fails, for either reason: [False] is returned after
    the sends of the frame, which the ERROR byte follows only when the
    attempts are exhausted. *)
Lemma send_packet_fails (why : failure) (p : bytes) (bs : list byte)
    (log : list bytes) (rest : list event) :
  failing_rounds N why bs ->
  send_packet N p (mkSocket log (failing_script why bs rest)) =
  (inr false,
   mkSocket (log ++ repeat p (failing_sends why bs) ++ error_bytes why) rest).
Proof.
  intros [Hbs Hlen]. unfold send_packet.
  destruct why; cbn [failing_script failing_sends error_bytes].
  - rewrite app_nil_r. apply send_packet_loop_abort; [exact Hbs | lia].
  - replace (Z.to_nat N) with (length bs) by lia.
    now apply send_packet_loop_exhausted.
Qed.

Lemma send_packet_times_out (p : bytes) (bs : list byte)
    (log : list bytes) (rest : list event) :
  Forall other bs -> Z.of_nat (length bs) < N ->
  send_packet N p (mkSocket log (map Reply bs ++ Timeout :: rest)) =
  (inl BluetoothError, mkSocket (log ++ repeat p (S (length bs))) rest).
Proof.
  intros Hbs Hlen. unfold send_packet.
  apply send_packet_loop_timed_out; [exact Hbs | lia].
Qed.

(** The transaction up to the first packet that is not acknowledged:
    the handshake is accepted, the packets of [pre] get through, then
    [send_packet] on [p] ends otherwise than with [True]. *)
Lemma transaction_first_failure (pre : list bytes) (p : bytes)
    (post : list bytes) (full_time : Q) (s sa s1 s' : socket)
    (r : exn + bool) :
  starting_transaction s = (inr tt, sa) ->
  sending_packets N 0 (length (pre ++ p :: post)) pre sa = (inr tt, s1) ->
  send_packet N p s1 = (r, s') ->
  r <> inr true ->
  transaction N (pre ++ p :: post) full_time s =
  (match r with
   | inl e => inl e
   | inr _ => inl (PacketSendError (length pre + 1)
                     (length (pre ++ p :: post)))
   end, s').
Proof.
  intros Hs Hpre Hp Hr.
  assert (Hsend : sending_packets N 0 (length (pre ++ p :: post))
                    (pre ++ p :: post) sa =
                  (match r with
                   | inl e => inl e
                   | inr _ => inl (PacketSendError (length pre + 1)
                                     (length (pre ++ p :: post)))
                   end, s')).
  { rewrite (sending_packets_app N _ (p :: post) pre 0 sa s1 Hpre).
    rewrite sending_packets_cons, Hp.
    destruct r as [e|[|]]; [reflexivity | congruence | reflexivity]. }
  destruct r as [e|[|]]; [|congruence|];
    (eapply transaction_fails_sending; [exact Hs | exact Hsend]).
Qed.

(** C7: for every frame and N > 0, [send_packet] sends the frame's
    bytes at most N times, whatever the device does; a frame that on
    every attempt is answered with NACK_RETRY or any byte other than
    ACK and NACK_ABORT is sent exactly N times, after which the ERROR
    byte is sent and [False] returned (attempts exhausted); a frame
    answered with ACK on attempt k <= N (after k - 1 such bytes) is
    sent exactly k times and [True] is returned. *)
Theorem send_packet_bounded_retries (p : bytes) (s : socket)
    (bs cs : list byte) (log : list bytes) (rest : list event) :
  0 < N ->
  Forall other bs -> Z.of_nat (length bs) = N ->
  Forall other cs -> Z.of_nat (length cs) < N ->
  (exists (k : nat) (tail : list bytes),
      Z.of_nat k <= N
      /\ sent (snd (send_packet N p s)) = sent s ++ repeat p k ++ tail
      /\ (tail = []
          \/ tail = [UPD_ERR] /\ Z.of_nat k = N
             /\ fst (send_packet N p s) = inr false))
  /\ send_packet N p (mkSocket log (map Reply bs ++ rest)) =
     (inr false, mkSocket (log ++ repeat p (length bs) ++ [UPD_ERR]) rest)
  /\ send_packet N p (mkSocket log (map Reply cs ++ Reply xff :: rest)) =
     (inr true, mkSocket (log ++ repeat p (S (length cs))) rest).
Proof.
  intros HN Hbs Hlen Hcs Hlen'. unfold send_packet. repeat split.
  - destruct (send_packet_loop_bound p (Z.to_nat N) s)
      as (k & tail & Hk & Hs & Ht).
    exists k, tail. split; [lia|]. split; [exact Hs|].
    destruct Ht as [Ht | (Ht & Hkn & Hf)]; [now left|].
    right. repeat split; [exact Ht | lia | exact Hf].
  - replace (Z.to_nat N) with (length bs) by lia.
    now apply send_packet_loop_exhausted.
  - apply send_packet_loop_ack; [exact Hcs | lia].
Qed.

(** C2, as the code has it: a read timeout on the response byte is not
    retried.  When attempt k <= N times out, the attempts before it
    having been answered with bytes other than ACK and NACK_ABORT, the
    frame has been sent exactly k times; it is not sent again, no ERROR
    byte is sent, and the timeout leaves [send_packet] as an exception
    that ends the session on the spot, with no further frame sent,
    whether or not attempts remain. *)
Theorem send_packet_timeout_fatal (p : bytes) (bs : list byte)
    (pre post : list bytes) (full_time : Q) (s sa : socket)
    (log : list bytes) (rest : list event) :
  Forall other bs ->
  Z.of_nat (length bs) < N ->
  starting_transaction s = (inr tt, sa) ->
  sending_packets N 0 (length (pre ++ p :: post)) pre sa =
    (inr tt, mkSocket log (map Reply bs ++ Timeout :: rest)) ->
  send_packet N p (mkSocket log (map Reply bs ++ Timeout :: rest)) =
  (inl BluetoothError, mkSocket (log ++ repeat p (S (length bs))) rest)
  /\ transaction N (pre ++ p :: post) full_time s =
     (inl BluetoothError, mkSocket (log ++ repeat p (S (length bs))) rest).
Proof.
  intros Hbs Hlen Hs Hpre.
  pose proof (send_packet_times_out p bs log rest Hbs Hlen) as Hp.
  split; [exact Hp|].
  rewrite (transaction_first_failure pre p post full_time s sa _ _ _
             Hs Hpre Hp); [reflexivity | discriminate].
Qed.

(** C3, as the code has it: on the first frame that fails, whether by
    abort or by attempts exhausted, no further data frame is sent and
    the session ends with the error that names the frame ('packet
    i+1/n send error' for the frame of index i).  When the attempts
    are exhausted exactly one ERROR byte (0xEE) follows the last send
    of the frame; when the device aborts (NACK_ABORT) no ERROR byte is
    sent: [error_bytes] is [[UPD_ERR]] in the first case and [[]] in
    the second. *)
Theorem first_failure_ends_transfer (why : failure) (p : bytes)
    (bs : list byte) (pre post : list bytes) (full_time : Q)
    (s sa : socket) (log : list bytes) (rest : list event) :
  failing_rounds N why bs ->
  starting_transaction s = (inr tt, sa) ->
  sending_packets N 0 (length (pre ++ p :: post)) pre sa =
    (inr tt, mkSocket log (failing_script why bs rest)) ->
  transaction N (pre ++ p :: post) full_time s =
  (inl (PacketSendError (length pre + 1) (length (pre ++ p :: post))),
   mkSocket (log ++ repeat p (failing_sends why bs) ++ error_bytes why) rest).
Proof.
  intros Hwhy Hs Hpre.
  pose proof (send_packet_fails why p bs log rest Hwhy) as Hp.
  rewrite (transaction_first_failure pre p post full_time s sa _ _ _
             Hs Hpre Hp); [reflexivity | discriminate].
Qed.

(** C6, as the code has it: NACK_ABORT on attempt k <= N stops the
    retrying at once: the frame has been sent exactly k times, no
    remaining attempt is used, nothing is sent again and no ERROR byte
    is sent.  The failure reaches the caller as the result [False], the
    same result as when the attempts are exhausted: the caller cannot
    tell the two apart; only the wire can, where exhaustion ends with
    an ERROR byte. *)
Theorem send_packet_abort (p : bytes) (bs cs : list byte)
    (log log' : list bytes) (rest rest' : list event) :
  Forall other bs -> Z.of_nat (length bs) < N ->
  Forall other cs -> Z.of_nat (length cs) = N ->
  send_packet N p (mkSocket log (map Reply bs ++ Reply xaa :: rest)) =
  (inr false, mkSocket (log ++ repeat p (S (length bs))) rest)
  /\ send_packet N p (mkSocket log' (map Reply cs ++ rest')) =
     (inr false, mkSocket (log' ++ repeat p (length cs) ++ [UPD_ERR]) rest')
  /\ fst (send_packet N p (mkSocket log (map Reply bs ++ Reply xaa :: rest)))
     = fst (send_packet N p (mkSocket log' (map Reply cs ++ rest'))).
Proof.
  intros Hbs Hlen Hcs Hlen'.
  pose proof (send_packet_fails Aborted p bs log rest (conj Hbs Hlen)) as H1.
  pose proof (send_packet_fails Exhausted p cs log' rest' (conj Hcs Hlen'))
    as H2.
  cbn [failing_script failing_sends error_bytes] in H1, H2.
  rewrite app_nil_r in H1. rewrite H1, H2. repeat split.
Qed.

End RetryProtocol.

(* ------------------------------------------------------------------ *)
(** ** The retry protocol on the example sessions *)

Section RetryScenarios.

Lemma send_packet_bounded_retries_witness :
  (exists (k : nat) (tail : list bytes),
      Z.of_nat k <= 3
      /\ sent (snd (send_packet 3 frame_0 (mkSocket [] [Timeout])))
         = sent (mkSocket [] [Timeout]) ++ repeat frame_0 k ++ tail
      /\ (tail = []
          \/ tail = [UPD_ERR] /\ Z.of_nat k = 3
             /\ fst (send_packet 3 frame_0 (mkSocket [] [Timeout]))
                = inr false))
  /\ send_packet 3 frame_0
       (mkSocket [] (map Reply [xee; x00; xee] ++ [])) =
     (inr false,
      mkSocket ([] ++ repeat frame_0 (length [xee; x00; xee]) ++ [UPD_ERR]) [])
  /\ send_packet 3 frame_0 (mkSocket [] (map Reply [xee] ++ Reply xff :: [])) =
     (inr true, mkSocket ([] ++ repeat frame_0 (S (length [xee]))) []).
Proof.
  apply (send_packet_bounded_retries 3 frame_0
           (mkSocket [] [Timeout]) [xee; x00; xee] [xee] [] []).
  - lia.
  - repeat constructor; discriminate.
  - reflexivity.
  - repeat constructor; discriminate.
  - simpl. lia.
Defined.

(** With a device that stays silent after the handshake the frame is
    sent once, not three times, and the run ends with the timeout. *)
Lemma scenario_silent_not_retried :
  send_packet 3 frame_0 (mkSocket [] [Timeout; Timeout; Timeout])
  = (inl BluetoothError, mkSocket [frame_0] [Timeout; Timeout])
  /\ send_packet 3 frame_0 (mkSocket [] [Timeout; Timeout; Timeout])
     <> (inr false, mkSocket [frame_0; frame_0; frame_0; UPD_ERR] [])
  /\ observe (upload_firmware 3 1 scenario_silent)
     = Some (inl BluetoothError, 28, [firmware_update; UPD_BEG; frame_0]).
Proof.
  split; [reflexivity|]. split.
  - discriminate.
  - vm_compute. reflexivity.
Qed.

(** The second of three frames times out on its second attempt. *)
Lemma send_packet_timeout_fatal_witness :
  send_packet 3 frame_1
    (mkSocket [firmware_update; UPD_BEG; frame_0]
       (map Reply [xee] ++ Timeout :: [])) =
  (inl BluetoothError,
   mkSocket ([firmware_update; UPD_BEG; frame_0]
               ++ repeat frame_1 (S (length [xee]))) [])
  /\ transaction 3 ([frame_0] ++ frame_1 :: [frame_2]) 1
       (mkSocket [] [Reply xff; Reply xff; Reply xff; Reply xee; Timeout]) =
     (inl BluetoothError,
      mkSocket ([firmware_update; UPD_BEG; frame_0]
                  ++ repeat frame_1 (S (length [xee]))) []).
Proof.
  apply (send_packet_timeout_fatal 3 frame_1 [xee] [frame_0] [frame_2] 1
           (mkSocket [] [Reply xff; Reply xff; Reply xff; Reply xee; Timeout])
           (mkSocket [firmware_update; UPD_BEG]
              [Reply xff; Reply xee; Timeout])).
  - repeat constructor; discriminate.
  - simpl. lia.
  - reflexivity.
  - reflexivity.
Defined.

(** In scenario B the run fails on the first frame and no ERROR byte
    goes out: the frame is the last thing sent. *)
Lemma scenario_B_no_error_byte :
  observe (upload_firmware 3 1 scenario_B)
  = Some (inl (PacketSendError 1 3), 28, [firmware_update; UPD_BEG; frame_0])
  /\ count_sent UPD_ERR (upload_firmware 3 1 scenario_B) = Some 0%nat
  /\ count_sent UPD_ERR (upload_firmware 3 1 scenario_B) <> Some 1%nat.
Proof.
  split; [vm_compute; reflexivity|]. split.
  - vm_compute. reflexivity.
  - vm_compute. discriminate.
Qed.

(** The transaction of scenario B: the first frame is aborted. *)
Lemma first_failure_ends_transfer_witness :
  transaction 3 ([] ++ frame_0 :: [frame_1; frame_2]) 1
    (mkSocket [] [Reply xff; Reply xff; Reply xaa]) =
  (inl (PacketSendError (length (@nil bytes) + 1)
          (length ([] ++ frame_0 :: [frame_1; frame_2]))),
   mkSocket ([firmware_update; UPD_BEG]
               ++ repeat frame_0 (failing_sends Aborted [])
               ++ error_bytes Aborted) []).
Proof.
  apply (first_failure_ends_transfer 3 Aborted frame_0 []
           [] [frame_1; frame_2] 1
           (mkSocket [] [Reply xff; Reply xff; Reply xaa])
           (mkSocket [firmware_update; UPD_BEG] [Reply xaa])).
  - split; [constructor | simpl; lia].
  - reflexivity.
  - reflexivity.
Defined.

(** An abort and exhausted attempts give the caller the same result,
    and the run the same error. *)
Lemma abort_reported_like_exhaustion :
  send_packet 3 frame_0 (mkSocket [] [Reply xaa])
  = (inr false, mkSocket [frame_0] [])
  /\ send_packet 3 frame_0 (mkSocket [] [Reply xee; Reply xee; Reply xee])
     = (inr false, mkSocket [frame_0; frame_0; frame_0; UPD_ERR] [])
  /\ option_map fst (upload_firmware 3 1 scenario_B)
     = Some (inl (PacketSendError 1 3))
  /\ option_map fst (upload_firmware 3 1 scenario_retry)
     = Some (inl (PacketSendError 1 3)).
Proof.
  split; [reflexivity|]. split; [reflexivity|].
  split; vm_compute; reflexivity.
Qed.

Lemma send_packet_abort_witness :
  send_packet 3 frame_0 (mkSocket [] (map Reply [xee] ++ Reply xaa :: [])) =
  (inr false, mkSocket ([] ++ repeat frame_0 (S (length [xee]))) [])
  /\ send_packet 3 frame_0 (mkSocket [] (map Reply [xee; x00; xee] ++ [])) =
     (inr false,
      mkSocket ([] ++ repeat frame_0 (length [xee; x00; xee]) ++ [UPD_ERR]) [])
  /\ fst (send_packet 3 frame_0
            (mkSocket [] (map Reply [xee] ++ Reply xaa :: [])))
     = fst (send_packet 3 frame_0
              (mkSocket [] (map Reply [xee; x00; xee] ++ []))).
Proof.
  apply (send_packet_abort 3 frame_0 [xee] [xee; x00; xee] [] [] [] []).
  - repeat constructor; discriminate.
  - simpl. lia.
  - repeat constructor; discriminate.
  - reflexivity.
Defined.

End RetryScenarios.

(* ------------------------------------------------------------------ *)
(** ** More on frame building *)

Section FrameShapes.

Lemma len_zero_nil (b : bytes) : len b <= 0 -> b = [].
Proof.
  unfold len. destruct b; [reflexivity | simpl length; lia].
Qed.

(** The invariant of the packet loop, whatever the chunk size: when the
    loop returns, what it appended are the frames of chunks that make
    up the unread rest of the file; no chunk is empty or longer than
    the chunk size, and all but the last are full. *)
Lemma prepare_loop_covers :
  forall (fuel : nat) (c : Z) (f : bytes) (result : list bytes) (full : Z)
         (ps : list bytes) (n : Z),
    prepare_loop fuel c (len f) f result full = Some (inr (ps, n)) ->
    exists ds : list bytes,
      ps = result ++ map packet_of ds
      /\ concat ds = f
      /\ Forall (fun d => 0 < len d <= c) ds
      /\ full_but_last c ds
      /\ n = full + total_len (map packet_of ds).
Proof.
  induction fuel as [|fuel IH]; intros c f result full ps n H.
  - cbn [prepare_loop] in H.
    destruct (len f >? 0) eqn:E; [discriminate|].
    rewrite Z.gtb_ltb in E; apply Z.ltb_ge in E.
    inversion H; subst. exists []. rewrite app_nil_r.
    repeat split; [symmetry; now apply len_zero_nil | constructor | simpl; lia].
  - cbn [prepare_loop] in H.
    destruct (len f >? 0) eqn:E.
    + rewrite Z.gtb_ltb in E; apply Z.ltb_lt in E.
      destruct (read f (Z.min c (len f))) as [e|[dat f']] eqn:Er;
        [discriminate|].
      destruct (make_packet (Z.min c (len f)) dat) as [e|pkt] eqn:Em;
        [discriminate|].
      apply make_packet_inr in Em. destruct Em as [Hn Hpkt].
      destruct (read_prefix f (Z.min c (len f))) as (Hr & Hl & Hs); [lia|].
      rewrite Hr in Er. inversion Er; subst dat f'. clear Er.
      set (k := Z.to_nat (Z.min c (len f))) in *.
      rewrite <- Hs in H. apply IH in H.
      destruct H as (ds & -> & Hcat & Hb & Hfull & ->).
      rewrite <- Hl in Hpkt at 1. fold (packet_of (firstn k f)) in Hpkt.
      subst pkt.
      assert (Hpos : 0 < len (firstn k f) /\ (ds <> [] -> len (firstn k f) = c)).
      { destruct ds as [|d ds].
        - simpl in Hcat. rewrite <- Hcat in Hs. unfold len in Hs at 1.
          simpl in Hs. split; [lia | congruence].
        - inversion Hb as [|? ? Hd _]; subst.
          assert (Hf' : 0 < len (skipn k f)).
          { rewrite <- Hcat. cbn [concat]. rewrite len_app.
            pose proof (len_nonneg (concat ds)). lia. }
          split; [lia|]. intros _. lia. }
      destruct Hpos as [Hpos Hc].
      exists (firstn k f :: ds). cbn [map concat total_len].
      rewrite <- app_assoc. cbn [app]. rewrite Hcat.
      repeat split.
      * apply firstn_skipn.
      * constructor; [|exact Hb]. split; [exact Hpos | lia].
      * cbn [full_but_last]. destruct ds as [|d ds]; [exact I|].
        split; [apply Hc; discriminate | exact Hfull].
      * lia.
    + rewrite Z.gtb_ltb in E; apply Z.ltb_ge in E.
      inversion H; subst. exists []. rewrite app_nil_r.
      repeat split; [symmetry; now apply len_zero_nil | constructor | simpl; lia].
Qed.

Lemma prepare_packets_covers (fuel : nat) (c : Z) (source : bytes)
    (ps : list bytes) (n : Z) :
  prepare_packets fuel c source = Some (inr (ps, n)) ->
  exists ds : list bytes,
    ps = map packet_of ds
    /\ concat ds = source
    /\ Forall (fun d => 0 < len d <= c) ds
    /\ full_but_last c ds
    /\ n = total_len (map packet_of ds).
Proof.
  unfold prepare_packets. intros H. apply prepare_loop_covers in H.
  destruct H as (ds & -> & H1 & H2 & H3 & ->).
  exists ds. repeat split; assumption.
Qed.

(** X1: whatever the chunk size, when [prepare_packets] returns, no
    frame has an empty payload or a payload longer than the chunk size,
    and every frame but the last has a payload of exactly the chunk
    size. *)
Theorem prepare_packets_payload_sizes (fuel : nat) (c : Z) (source : bytes)
    (ps : list bytes) (n : Z) :
  prepare_packets fuel c source = Some (inr (ps, n)) ->
  Forall (fun p => 1 <= len (packet_payload p) <= c) ps
  /\ full_but_last c (map packet_payload ps).
Proof.
  intros H. apply prepare_packets_covers in H.
  destruct H as (ds & -> & _ & Hb & Hfull & _).
  rewrite payloads_of_packets. split; [|exact Hfull].
  clear Hfull. induction Hb as [|d ds Hd _ IH]; constructor.
  - rewrite packet_payload_of. lia.
  - exact IH.
Qed.

Lemma prepare_packets_payload_sizes_witness :
  prepare_packets 3 4 ten_bytes = Some (inr ([frame_0; frame_1; frame_2], 28))
  /\ Forall (fun p => 1 <= len (packet_payload p) <= 4)
       [frame_0; frame_1; frame_2]
  /\ full_but_last 4 (map packet_payload [frame_0; frame_1; frame_2]).
Proof.
  assert (H : prepare_packets 3 4 ten_bytes
              = Some (inr ([frame_0; frame_1; frame_2], 28)))
    by (vm_compute; reflexivity).
  split; [exact H|].
  exact (prepare_packets_payload_sizes 3 4 ten_bytes _ 28 H).
Defined.

(** X2: whatever the chunk size, when [prepare_packets] returns, the
    payloads of the frames concatenated are the file, and the value
    left in [full_size] is the size of the file plus six bytes for
    every frame. *)
Theorem prepare_packets_full_size (fuel : nat) (c : Z) (source : bytes)
    (ps : list bytes) (n : Z) :
  prepare_packets fuel c source = Some (inr (ps, n)) ->
  concat (map packet_payload ps) = source
  /\ n = total_len ps
  /\ n = len source + 6 * Z.of_nat (length ps).
Proof.
  intros H. apply prepare_packets_covers in H.
  destruct H as (ds & -> & Hcat & _ & _ & ->).
  rewrite payloads_of_packets. repeat split; [exact Hcat|].
  rewrite total_len_packets, total_len_concat, Hcat, length_map.
  reflexivity.
Qed.

Lemma prepare_packets_full_size_witness :
  prepare_packets 3 4 ten_bytes = Some (inr ([frame_0; frame_1; frame_2], 28))
  /\ concat (map packet_payload [frame_0; frame_1; frame_2]) = ten_bytes
  /\ 28 = total_len [frame_0; frame_1; frame_2]
  /\ 28 = len ten_bytes
          + 6 * Z.of_nat (length [frame_0; frame_1; frame_2]).
Proof.
  assert (H : prepare_packets 3 4 ten_bytes
              = Some (inr ([frame_0; frame_1; frame_2], 28)))
    by (vm_compute; reflexivity).
  split; [exact H|].
  exact (prepare_packets_full_size 3 4 ten_bytes _ 28 H).
Defined.

Lemma chunk_count (c : Z) : 0 < c ->
  forall ds : list bytes,
    Forall (fun d => 0 < len d <= c) ds -> full_but_last c ds ->
    Z.of_nat (length ds) = (len (concat ds) + c - 1) / c.
Proof.
  intros Hc. induction ds as [|d ds IH]; intros Hb Hfull.
  - cbn. symmetry. apply Z.div_small. lia.
  - inversion Hb as [|? ? Hd Hb']; subst.
    cbn [concat length]. rewrite len_app, Nat2Z.inj_succ.
    destruct ds as [|d' ds].
    + cbn [concat length Z.of_nat]. change (len []) with 0.
      apply Z.div_unique with (r := len d - 1); lia.
    + destruct Hfull as [Hd' Hfull]. rewrite IH by assumption.
      rewrite Hd'.
      replace (c + len (concat (d' :: ds)) + c - 1)
        with (len (concat (d' :: ds)) + c - 1 + 1 * c) by lia.
      rewrite Z.div_add by lia. lia.
Qed.

(** X3: with a positive chunk size c, when [prepare_packets] returns,
    the number of frames is the size of the file divided by c, rounded
    up. *)
Theorem prepare_packets_frame_count (fuel : nat) (c : Z) (source : bytes)
    (ps : list bytes) (n : Z) :
  0 < c ->
  prepare_packets fuel c source = Some (inr (ps, n)) ->
  Z.of_nat (length ps) = (len source + c - 1) / c.
Proof.
  intros Hc H. apply prepare_packets_covers in H.
  destruct H as (ds & -> & Hcat & Hb & Hfull & _).
  rewrite length_map, <- Hcat. now apply chunk_count.
Qed.

Lemma prepare_packets_frame_count_witness :
  prepare_packets 3 4 ten_bytes = Some (inr ([frame_0; frame_1; frame_2], 28))
  /\ Z.of_nat (length [frame_0; frame_1; frame_2]) = (len ten_bytes + 4 - 1) / 4.
Proof.
  assert (H : prepare_packets 3 4 ten_bytes
              = Some (inr ([frame_0; frame_1; frame_2], 28)))
    by (vm_compute; reflexivity).
  split; [exact H|].
  apply (prepare_packets_frame_count 3 4 ten_bytes _ 28); [lia | exact H].
Defined.

End FrameShapes.

(* ------------------------------------------------------------------ *)
(** ** Chunk sizes that frame building cannot use *)

Section FrameFailures.

Lemma len_pos_nonempty (b : bytes) : b <> [] -> 0 < len b.
Proof.
  unfold len. destruct b; [congruence | simpl length; lia].
Qed.

Lemma gtb_pos (z : Z) : 0 < z -> (z >? 0) = true.
Proof. intros H. rewrite Z.gtb_ltb. now apply Z.ltb_lt. Qed.

(** X4: with chunk size 0 and a file that is not empty,
    [prepare_packets] never returns: the loop is still running
    whatever fuel it is given. *)
Theorem prepare_packets_zero_chunk (fuel : nat) (source : bytes) :
  source <> [] -> prepare_packets fuel 0 source = None.
Proof.
  intros H. unfold prepare_packets.
  apply prepare_loop_zero. now apply len_pos_nonempty.
Qed.

Lemma prepare_packets_zero_chunk_witness :
  prepare_packets 1000 0 ten_bytes = None.
Proof.
  apply (prepare_packets_zero_chunk 1000 ten_bytes). discriminate.
Defined.

(** X5: with a negative chunk size and a file that is not empty,
    [prepare_packets] raises in its first round and returns no frame:
    [f.read] refuses a length below -1 (ValueError), and for -1 the
    whole file is read but -1 does not fit the unsigned length field
    (OverflowError). *)
Theorem prepare_packets_negative_chunk (fuel : nat) (c : Z) (source : bytes) :
  c < 0 -> source <> [] ->
  prepare_packets (S fuel) c source =
  Some (inl (if c =? -1 then OverflowError else ValueError)).
Proof.
  intros Hc Hne. apply len_pos_nonempty in Hne.
  unfold prepare_packets. cbn [prepare_loop].
  rewrite gtb_pos by exact Hne. rewrite Z.min_l by lia.
  destruct (c =? -1) eqn:E.
  - apply Z.eqb_eq in E. subst c.
    change (read source (-1)) with (@inr exn (bytes * bytes) (source, [])).
    cbn iota. rewrite make_packet_overflow by lia. reflexivity.
  - apply Z.eqb_neq in E. unfold read.
    destruct (c <? -1) eqn:E'; [reflexivity|].
    apply Z.ltb_ge in E'. lia.
Qed.

Lemma prepare_packets_negative_chunk_witness :
  prepare_packets 1 (-5) ten_bytes =
  Some (inl (if -5 =? -1 then OverflowError else ValueError)).
Proof.
  apply (prepare_packets_negative_chunk 0 (-5) ten_bytes).
  - lia.
  - discriminate.
Defined.

(** X6: when both the chunk size and the file are 65536 bytes or more,
    [prepare_packets] raises OverflowError in its first round: the
    size of the first chunk does not fit the 2-byte length field. *)
Theorem prepare_packets_oversize_chunk (fuel : nat) (c : Z) (source : bytes) :
  65536 <= c -> 65536 <= len source ->
  prepare_packets (S fuel) c source = Some (inl OverflowError).
Proof.
  intros Hc Hlen. unfold prepare_packets. cbn [prepare_loop].
  rewrite gtb_pos by lia.
  destruct (read_prefix source (Z.min c (len source))) as (Hr & _ & _); [lia|].
  rewrite Hr. rewrite make_packet_overflow by lia. reflexivity.
Qed.

Lemma prepare_packets_oversize_chunk_witness :
  prepare_packets 1 65536 (repeat x00 (Z.to_nat 65536))
  = Some (inl OverflowError).
Proof.
  apply (prepare_packets_oversize_chunk 0 65536 (repeat x00 (Z.to_nat 65536))).
  - lia.
  - unfold len. rewrite repeat_length. lia.
Defined.

End FrameFailures.

(* ------------------------------------------------------------------ *)
(** ** The packet size option *)

Section PacketSize.

Lemma full_but_last_packets (c : Z) (ds : list bytes) :
  full_but_last c ds -> full_but_last (c + 6) (map packet_of ds).
Proof.
  induction ds as [|d ds IH]; intros H; [exact I|].
  destruct ds as [|d' ds]; [exact I|].
  destruct H as [Hd H]. cbn [map full_but_last].
  split; [rewrite len_packet_of; lia | exact (IH H)].
Qed.

(** X7: an updater constructed with the packet size P (512 when the
    keyword is not given) never builds a frame longer than P bytes
    on the wire: every frame has between 7 and P bytes, and every frame
    but the last has exactly P. *)
Theorem frames_within_packet_size (contents : bytes) (s : socket)
    (kw : kwargs) (fu : FirmwareUpdater) (fuel : nat) (ps : list bytes)
    (n : Z) :
  init contents (Some s) kw = inr fu ->
  prepare_packets fuel (packsize fu) (file fu) = Some (inr (ps, n)) ->
  Forall (fun p => 7 <= len p <= pop (kw_packsize kw) 512) ps
  /\ full_but_last (pop (kw_packsize kw) 512) ps.
Proof.
  unfold init. intros Hinit H. inversion Hinit; subst fu. clear Hinit.
  cbn [packsize file] in H. apply prepare_packets_covers in H.
  destruct H as (ds & -> & _ & Hb & Hfull & _).
  unfold CRC_SIZE, PKG_SIZE in *. split.
  - clear Hfull. induction Hb as [|d ds Hd _ IH]; constructor.
    + rewrite len_packet_of. lia.
    + exact IH.
  - apply full_but_last_packets in Hfull.
    replace (pop (kw_packsize kw) 512 - 4 - 2 + 6)
      with (pop (kw_packsize kw) 512) in Hfull by lia.
    exact Hfull.
Qed.

Lemma frames_within_packet_size_witness :
  Forall (fun p => 7 <= len p
                   <= pop (kw_packsize (mkKwargs None (Some 10) None None)) 512)
    [frame_0; frame_1; frame_2]
  /\ full_but_last (pop (kw_packsize (mkKwargs None (Some 10) None None)) 512)
       [frame_0; frame_1; frame_2].
Proof.
  apply (frames_within_packet_size ten_bytes (mkSocket [] [])
           (mkKwargs None (Some 10) None None)
           (mkFirmwareUpdater ten_bytes 1 4 3 0 (mkSocket [] []) 0 [])
           3 [frame_0; frame_1; frame_2] 28).
  - reflexivity.
  - vm_compute. reflexivity.
Defined.

(** X8: a whole upload to a device that acknowledges everything, in
    a run in which the progress display works at every packet.  For an
    updater constructed with a packet size P above 6 whose chunks fit
    the length field (P - 6 or the file below 65536 bytes) and a
    positive attempt count, any file, fuel for its length and a
    measured time that is not zero, [upload_firmware] ends normally, having sent the announcement, BEGIN, every frame once in
    file order and END; the payloads of the frames sent are the file,
    and [full_size] is the size of the file plus six bytes per frame. *)
Theorem upload_delivers_file (kw : kwargs) (contents : bytes) (con : console)
    (fuel : nat) (full_time : Q) (rest : list event) :
  (forall n : nat, displays con n) ->
  6 < pop (kw_packsize kw) 512 ->
  Z.min (pop (kw_packsize kw) 512 - 6) (len contents) < 65536 ->
  0 < pop (kw_attempts kw) 3 ->
  (length contents <= fuel)%nat ->
  ~ (full_time == 0)%Q ->
  exists (ps : list bytes) (fu : FirmwareUpdater),
    concat (map packet_payload ps) = contents
    /\ init contents
         (Some (mkSocket [] (repeat (Reply xff) (2 + length ps + 1) ++ rest)))
         kw = inr fu
    /\ upload_firmware_on con fuel full_time fu =
       Some (inr tt,
             mkFirmwareUpdater contents (pop (kw_timeout kw) 1)
               (pop (kw_packsize kw) 512 - 4 - 2) (pop (kw_attempts kw) 3)
               (pop (kw_verbose kw) 0)
               (mkSocket ([firmware_update; UPD_BEG] ++ ps ++ [UPD_END]) rest)
               (len contents + 6 * Z.of_nat (length ps)) ps).
Proof.
  intros Hd Hsize Hmin HN Hfuel Ht.
  set (c := pop (kw_packsize kw) 512 - 4 - 2).
  set (ps := build_frames c contents).
  exists ps.
  exists (mkFirmwareUpdater contents (pop (kw_timeout kw) 1) c
            (pop (kw_attempts kw) 3) (pop (kw_verbose kw) 0)
            (mkSocket [] (repeat (Reply xff) (2 + length ps + 1) ++ rest))
            0 []).
  split; [apply payloads_build_frames; unfold c; lia|].
  split; [reflexivity|].
  assert (Hprep : prepare_packets fuel c contents
                  = Some (inr (ps, len contents + 6 * Z.of_nat (length ps)))).
  { apply prepare_packets_build_frames;
      [unfold c; lia | unfold c; lia | exact Hfuel]. }
  rewrite (upload_firmware_on_displays con fuel full_time
             (mkFirmwareUpdater contents (pop (kw_timeout kw) 1) c
                (pop (kw_attempts kw) 3) (pop (kw_verbose kw) 0)
                (mkSocket [] (repeat (Reply xff) (2 + length ps + 1) ++ rest))
                0 [])
             ps _ Hprep (Hd _)).
  unfold upload_firmware. cbn [packsize file attempts sock timeout verbose].
  rewrite Hprep.
  pose proof (transaction_acked (pop (kw_attempts kw) 3) ps full_time []
                xff rest HN Ht) as Htr.
  replace (repeat (Reply xff) (2 + length ps + 1) ++ rest)
    with (Reply xff :: Reply xff
            :: repeat (Reply xff) (length ps) ++ Reply xff :: rest).
  - rewrite Htr. reflexivity.
  - cbn [Nat.add repeat app]. do 2 f_equal.
    rewrite repeat_app. rewrite <- app_assoc. reflexivity.
Qed.

Lemma upload_delivers_file_witness :
  exists (ps : list bytes) (fu : FirmwareUpdater),
    concat (map packet_payload ps) = ten_bytes
    /\ init ten_bytes
         (Some (mkSocket [] (repeat (Reply xff) (2 + length ps + 1) ++ [])))
         (mkKwargs None (Some 10) None None) = inr fu
    /\ upload_firmware_on terminal_80 10 1 fu =
       Some (inr tt,
             mkFirmwareUpdater ten_bytes
               (pop (kw_timeout (mkKwargs None (Some 10) None None)) 1)
               (pop (kw_packsize (mkKwargs None (Some 10) None None)) 512
                - 4 - 2)
               (pop (kw_attempts (mkKwargs None (Some 10) None None)) 3)
               (pop (kw_verbose (mkKwargs None (Some 10) None None)) 0)
               (mkSocket ([firmware_update; UPD_BEG] ++ ps ++ [UPD_END]) [])
               (len ten_bytes + 6 * Z.of_nat (length ps)) ps).
Proof.
  apply (upload_delivers_file (mkKwargs None (Some 10) None None) ten_bytes
           terminal_80 10 1 []).
  - intros n. split; [discriminate | reflexivity].
  - simpl. lia.
  - vm_compute. reflexivity.
  - simpl. lia.
  - simpl. lia.
  - discriminate.
Defined.

End PacketSize.

(* ------------------------------------------------------------------ *)
(** ** More on the retry loop *)

Section RetryLoop.

Lemma bytes_eqb_ack (b : byte) :
  bytes_eqb [b] PKG_ACK = (if Byte.byte_eq_dec b xff then true else false).
Proof.
  unfold PKG_ACK. destruct (Byte.byte_eq_dec b xff) as [->|Hb].
  - reflexivity.
  - destruct (bytes_eqb [b] [xff]) eqn:E; [|reflexivity].
    apply bytes_eqb_single in E. contradiction.
Qed.

Lemma bytes_eqb_pan (b : byte) :
  bytes_eqb [b] PKG_PAN = (if Byte.byte_eq_dec b xaa then true else false).
Proof.
  unfold PKG_PAN. destruct (Byte.byte_eq_dec b xaa) as [->|Hb].
  - reflexivity.
  - destruct (bytes_eqb [b] [xaa]) eqn:E; [|reflexivity].
    apply bytes_eqb_single in E. contradiction.
Qed.

(** The loop returns [True] only on an ACK. *)
Lemma send_packet_loop_true (p : bytes) :
  forall (n : nat) (s s' : socket),
    send_packet_loop n p s = (inr true, s') ->
    exists bs : list byte,
      Forall other bs /\ (length bs < n)%nat
      /\ incoming s = map Reply bs ++ Reply xff :: incoming s'
      /\ sent s' = sent s ++ repeat p (S (length bs)).
Proof.
  induction n as [|n IH]; intros [log script] s' H.
  - discriminate H.
  - destruct script as [|[b|] rest].
    + rewrite send_packet_loop_silence in H. discriminate H.
    + rewrite send_packet_loop_reply, bytes_eqb_ack, bytes_eqb_pan in H.
      destruct (Byte.byte_eq_dec b xff) as [->|Hff].
      * inversion H; subst. exists []. cbn. repeat split; [constructor | lia].
      * destruct (Byte.byte_eq_dec b xaa) as [->|Haa]; [discriminate H|].
        apply IH in H. destruct H as (bs & Hbs & Hlen & Hin & Hs).
        cbn [incoming sent] in *. exists (b :: bs).
        repeat split.
        -- constructor; [split; assumption | exact Hbs].
        -- simpl. lia.
        -- cbn [map app]. now rewrite Hin.
        -- rewrite Hs, <- app_assoc. reflexivity.
    + rewrite send_packet_loop_timeout in H. discriminate H.
Qed.


Variable N : Z.


(** X10: [send_packet] returns [True] only when the device has
    acknowledged the packet: the responses it read are fewer than N
    bytes that are neither ACK nor NACK_ABORT followed by an ACK, and
    the packet went out once for each of them and nothing else did. *)
Theorem send_packet_true_only_on_ack (p : bytes) (s s' : socket) :
  send_packet N p s = (inr true, s') ->
  exists bs : list byte,
    Forall other bs /\ Z.of_nat (length bs) < N
    /\ incoming s = map Reply bs ++ Reply xff :: incoming s'
    /\ sent s' = sent s ++ repeat p (S (length bs)).
Proof.
  unfold send_packet. intros H. apply send_packet_loop_true in H.
  destruct H as (bs & Hbs & Hlen & Hin & Hs).
  exists bs. repeat split; [exact Hbs | lia | exact Hin | exact Hs].
Qed.


End RetryLoop.



Lemma send_packet_true_only_on_ack_witness :
  exists bs : list byte,
    Forall other bs /\ Z.of_nat (length bs) < 3
    /\ incoming (mkSocket [] [Reply xee; Reply xff; Reply x00])
       = map Reply bs ++ Reply xff
           :: incoming (mkSocket [frame_0; frame_0] [Reply x00])
    /\ sent (mkSocket [frame_0; frame_0] [Reply x00])
       = sent (mkSocket [] [Reply xee; Reply xff; Reply x00])
           ++ repeat frame_0 (S (length bs)).
Proof.
  apply (send_packet_true_only_on_ack 3 frame_0
           (mkSocket [] [Reply xee; Reply xff; Reply x00])
           (mkSocket [frame_0; frame_0] [Reply x00])).
  reflexivity.
Defined.

(* ------------------------------------------------------------------ *)
(** ** More on the session *)

Section Handshake.

Lemma starting_transaction_reply (log : list bytes) (a b : byte)
    (rest : list event) :
  starting_transaction (mkSocket log (Reply a :: Reply b :: rest)) =
  (if bytes_eqb [b] PKG_ACK then inr tt else inl TransferDidNotBegin,
   mkSocket (log ++ [firmware_update; UPD_BEG]) rest).
Proof.
  unfold starting_transaction, bind, send, recv1. cbn [sent incoming].
  rewrite <- app_assoc.
  destruct (bytes_eqb [b] PKG_ACK); reflexivity.
Qed.

Lemma ending_transaction_reply (log : list bytes) (b : byte)
    (rest : list event) :
  ending_transaction (mkSocket log (Reply b :: rest)) =
  (if bytes_eqb [b] PKG_ACK then inr tt else inl EndingError,
   mkSocket (log ++ [UPD_END]) rest).
Proof.
  unfold ending_transaction, bind, send, recv1. cbn [sent incoming].
  destruct (bytes_eqb [b] PKG_ACK); reflexivity.
Qed.

Lemma bytes_eqb_not_ack (b : byte) : b <> xff -> bytes_eqb [b] PKG_ACK = false.
Proof.
  intros H. rewrite bytes_eqb_ack.
  destruct (Byte.byte_eq_dec b xff); [contradiction | reflexivity].
Qed.

(** An accepted handshake has read two bytes, the second an ACK. *)
Lemma starting_transaction_inr (s sa : socket) :
  starting_transaction s = (inr tt, sa) ->
  exists (a : byte) (rest : list event),
    incoming s = Reply a :: Reply xff :: rest
    /\ sa = mkSocket (sent s ++ [firmware_update; UPD_BEG]) rest.
Proof.
  destruct s as [log script]. intros H.
  destruct script as [|[a|] script]; [discriminate H | | discriminate H].
  destruct script as [|[b|] rest]; [discriminate H | | discriminate H].
  rewrite starting_transaction_reply, bytes_eqb_ack in H.
  destruct (Byte.byte_eq_dec b xff) as [->|]; [|discriminate H].
  inversion H; subst. exists a, rest. split; reflexivity.
Qed.

Lemma ending_transaction_inr (s s' : socket) :
  ending_transaction s = (inr tt, s') ->
  exists rest : list event,
    incoming s = Reply xff :: rest
    /\ s' = mkSocket (sent s ++ [UPD_END]) rest.
Proof.
  destruct s as [log script]. intros H.
  destruct script as [|[b|] rest]; [discriminate H | | discriminate H].
  rewrite ending_transaction_reply, bytes_eqb_ack in H.
  destruct (Byte.byte_eq_dec b xff) as [->|]; [|discriminate H].
  inversion H; subst. exists rest. split; reflexivity.
Qed.

Variable N : Z.

(** X12: when the answer to BEGIN is not the ACK byte, the session
    ends there and no frame is sent: only the announcement and BEGIN
    went out.  The error is 'Transfer did not begin' when the answer is
    another byte, and the timeout itself when there is no answer. *)
Theorem handshake_not_accepted (ps : list bytes) (full_time : Q)
    (log : list bytes) (a : byte) (e : event) (rest : list event) :
  e <> Reply xff ->
  transaction N ps full_time (mkSocket log (Reply a :: e :: rest)) =
  (inl match e with
       | Reply _ => TransferDidNotBegin
       | Timeout => BluetoothError
       end,
   mkSocket (log ++ [firmware_update; UPD_BEG]) rest).
Proof.
  intros He. unfold transaction, bind.
  destruct e as [b|].
  - rewrite starting_transaction_reply.
    rewrite bytes_eqb_not_ack by congruence. reflexivity.
  - unfold starting_transaction, bind, send, recv1. cbn [sent incoming].
    rewrite <- app_assoc. reflexivity.
Qed.

(** The first byte that the device answers, to the announcement, is
    read and ignored: its value changes nothing in the session. *)
Lemma first_response_ignored (ps : list bytes) (full_time : Q)
    (log : list bytes) (a a' : byte) (rest : list event) :
  transaction N ps full_time (mkSocket log (Reply a :: rest)) =
  transaction N ps full_time (mkSocket log (Reply a' :: rest)).
Proof. reflexivity. Qed.

(** X13: when every packet has got through but the answer to END is
    not the ACK byte, the session fails although all the frames were
    delivered: END is the last thing sent, and the error is the empty
    exception of 'Ending transaction' when the answer is another byte,
    and the timeout itself when there is no answer. *)
Theorem teardown_not_accepted (ps : list bytes) (full_time : Q)
    (s sa : socket) (log : list bytes) (e : event) (rest : list event) :
  starting_transaction s = (inr tt, sa) ->
  sending_packets N 0 (length ps) ps sa = (inr tt, mkSocket log (e :: rest)) ->
  ~ (full_time == 0)%Q ->
  e <> Reply xff ->
  transaction N ps full_time s =
  (inl match e with
       | Reply _ => EndingError
       | Timeout => BluetoothError
       end,
   mkSocket (log ++ [UPD_END]) rest).
Proof.
  intros Hs Hp Ht He. unfold transaction, bind. rewrite Hs, Hp.
  unfold average_speed.
  destruct (Qeq_bool full_time 0) eqn:E;
    [apply Qeq_bool_iff in E; contradiction|].
  unfold ret. destruct e as [b|].
  - rewrite ending_transaction_reply.
    rewrite bytes_eqb_not_ack by congruence. reflexivity.
  - reflexivity.
Qed.

(** X14: when the measured time of the sending loop is zero, the
    report of the average speed divides by zero: the session fails
    with ZeroDivisionError after every packet has got through, and END
    is not sent. *)
Theorem zero_time_fails (ps : list bytes) (full_time : Q)
    (s sa sb : socket) :
  starting_transaction s = (inr tt, sa) ->
  sending_packets N 0 (length ps) ps sa = (inr tt, sb) ->
  (full_time == 0)%Q ->
  transaction N ps full_time s = (inl ZeroDivisionError, sb).
Proof.
  intros Hs Hp Ht. unfold transaction, bind. rewrite Hs, Hp.
  unfold average_speed.
  destruct (Qeq_bool full_time 0) eqn:E; [reflexivity|].
  apply Qeq_bool_neq in E. contradiction.
Qed.

End Handshake.

Lemma handshake_not_accepted_witness :
  transaction 3 [frame_0; frame_1; frame_2] 1
    (mkSocket [] (Reply xff :: Reply xee :: [Reply xff])) =
  (inl match Reply xee with
       | Reply _ => TransferDidNotBegin
       | Timeout => BluetoothError
       end,
   mkSocket ([] ++ [firmware_update; UPD_BEG]) [Reply xff]).
Proof.
  apply (handshake_not_accepted 3 [frame_0; frame_1; frame_2] 1 [] xff
           (Reply xee) [Reply xff]).
  discriminate.
Defined.

Lemma teardown_not_accepted_witness :
  transaction 3 [frame_0] 1
    (mkSocket [] [Reply xff; Reply xff; Reply xff; Reply xee]) =
  (inl match Reply xee with
       | Reply _ => EndingError
       | Timeout => BluetoothError
       end,
   mkSocket ([firmware_update; UPD_BEG; frame_0] ++ [UPD_END]) []).
Proof.
  apply (teardown_not_accepted 3 [frame_0] 1
           (mkSocket [] [Reply xff; Reply xff; Reply xff; Reply xee])
           (mkSocket [firmware_update; UPD_BEG] [Reply xff; Reply xee])
           [firmware_update; UPD_BEG; frame_0] (Reply xee) []).
  - reflexivity.
  - reflexivity.
  - discriminate.
  - discriminate.
Defined.

Lemma zero_time_fails_witness :
  transaction 3 [frame_0] 0
    (mkSocket [] [Reply xff; Reply xff; Reply xff; Reply xff]) =
  (inl ZeroDivisionError,
   mkSocket [firmware_update; UPD_BEG; frame_0] [Reply xff]).
Proof.
  apply (zero_time_fails 3 [frame_0] 0
           (mkSocket [] [Reply xff; Reply xff; Reply xff; Reply xff])
           (mkSocket [firmware_update; UPD_BEG] [Reply xff; Reply xff])
           (mkSocket [firmware_update; UPD_BEG; frame_0] [Reply xff])).
  - reflexivity.
  - reflexivity.
  - reflexivity.
Defined.

(* ------------------------------------------------------------------ *)
(** ** Sessions that succeed *)

Section Delivery.

Variable N : Z.

(** The packets all get through when each is acknowledged within its
    attempts. *)
Lemma sending_packets_retried (total : nat) :
  forall (ps : list bytes) (bss : list (list byte)) (i : nat)
         (log : list bytes) (rest : list event),
    length bss = length ps ->
    Forall (retries_within N) bss ->
    sending_packets N i total ps (mkSocket log (retry_script bss ++ rest)) =
    (inr tt, mkSocket (log ++ deliveries ps bss) rest).
Proof.
  induction ps as [|p ps IH]; intros bss i log rest Hlen Hbss.
  - destruct bss; [|discriminate Hlen]. cbn. now rewrite app_nil_r.
  - destruct bss as [|bs bss]; [discriminate Hlen|].
    inversion Hbss as [|? ? [Hbs Hn] Hbss']; subst.
    rewrite sending_packets_cons. unfold send_packet, retry_script.
    cbn [map concat]. rewrite <- !app_assoc. cbn [app].
    rewrite send_packet_loop_ack by (exact Hbs || lia).
    fold (retry_script bss). rewrite IH by (simpl in Hlen; lia || exact Hbss').
    cbn [deliveries]. now rewrite <- app_assoc.
Qed.

(** The packets all get through only when each is acknowledged within
    its attempts. *)
Lemma sending_packets_inr (total : nat) :
  forall (ps : list bytes) (i : nat) (s s' : socket),
    sending_packets N i total ps s = (inr tt, s') ->
    exists bss : list (list byte),
      length bss = length ps
      /\ Forall (retries_within N) bss
      /\ incoming s = retry_script bss ++ incoming s'
      /\ sent s' = sent s ++ deliveries ps bss.
Proof.
  induction ps as [|p ps IH]; intros i s s' H.
  - cbn in H. inversion H; subst. exists []. cbn.
    repeat split; [constructor | now rewrite app_nil_r].
  - rewrite sending_packets_cons in H.
    destruct (send_packet N p s) as [[e|[|]] s1] eqn:Hp; try discriminate H.
    unfold send_packet in Hp. apply send_packet_loop_true in Hp.
    destruct Hp as (bs & Hbs & Hn & Hin & Hs).
    apply IH in H. destruct H as (bss & Hlen & Hbss & Hin' & Hs').
    exists (bs :: bss). repeat split.
    + simpl. now rewrite Hlen.
    + constructor; [split; [exact Hbs | lia] | exact Hbss].
    + unfold retry_script. cbn [map concat]. fold (retry_script bss).
      rewrite Hin, Hin', <- !app_assoc. reflexivity.
    + cbn [deliveries]. rewrite Hs', Hs, <- app_assoc. reflexivity.
Qed.

(** X15: in a run in which the progress display works at every
    packet, a session succeeds whenever the device accepts the
    handshake, acknowledges every packet within its N attempts
    (answering the attempts before with bytes that are neither ACK nor
    NACK_ABORT) and acknowledges END, the measured time not being zero;
    every packet then went out once per attempt, in order, between
    BEGIN and END. *)
Theorem transaction_succeeds (con : console) (ps : list bytes)
    (bss : list (list byte)) (full_time : Q) (log : list bytes) (a : byte)
    (rest : list event) :
  displays con (length ps) ->
  length bss = length ps ->
  Forall (retries_within N) bss ->
  ~ (full_time == 0)%Q ->
  transaction_on con N ps full_time
    (mkSocket log (Reply a :: Reply xff
                     :: retry_script bss ++ Reply xff :: rest)) =
  (inr tt,
   mkSocket (log ++ [firmware_update; UPD_BEG] ++ deliveries ps bss
               ++ [UPD_END]) rest).
Proof.
  intros Hd Hlen Hbss Ht. rewrite transaction_on_displays by exact Hd.
  unfold transaction, bind.
  rewrite starting_transaction_ok.
  rewrite sending_packets_retried by assumption.
  unfold average_speed.
  destruct (Qeq_bool full_time 0) eqn:E;
    [apply Qeq_bool_iff in E; contradiction|].
  unfold ret. rewrite ending_transaction_ok.
  now rewrite <- !app_assoc.
Qed.

(** A session succeeds only in that way. *)
Lemma transaction_inr (ps : list bytes)
    (full_time : Q) (s s' : socket) :
  transaction N ps full_time s = (inr tt, s') ->
  exists (a : byte) (bss : list (list byte)),
    length bss = length ps
    /\ Forall (retries_within N) bss
    /\ incoming s = Reply a :: Reply xff
                      :: retry_script bss ++ Reply xff :: incoming s'
    /\ sent s' = sent s ++ [firmware_update; UPD_BEG] ++ deliveries ps bss
                   ++ [UPD_END]
    /\ ~ (full_time == 0)%Q.
Proof.
  unfold transaction, bind. intros H.
  destruct (starting_transaction s) as [[e|[]] sa] eqn:Hs; [discriminate H|].
  destruct (sending_packets N 0 (length ps) ps sa) as [[e|[]] sb] eqn:Hp;
    [discriminate H|].
  unfold average_speed in H.
  destruct (Qeq_bool full_time 0) eqn:E; [discriminate H|].
  unfold ret in H.
  apply starting_transaction_inr in Hs. destruct Hs as (a & r1 & Hin & ->).
  apply sending_packets_inr in Hp.
  destruct Hp as (bss & Hlen & Hbss & Hin1 & Hs1).
  apply ending_transaction_inr in H. destruct H as (r2 & Hin2 & ->).
  cbn [sent incoming] in *.
  exists a, bss. repeat split.
  - exact Hlen.
  - exact Hbss.
  - rewrite Hin, Hin1, Hin2. reflexivity.
  - rewrite Hs1, <- !app_assoc. reflexivity.
  - now apply Qeq_bool_neq.
Qed.

End Delivery.

Lemma transaction_succeeds_witness :
  transaction_on terminal_80 3 [frame_0; frame_1] 1
    (mkSocket [] (Reply x00 :: Reply xff
                    :: retry_script [[xee; x00]; []] ++ Reply xff :: [])) =
  (inr tt,
   mkSocket ([] ++ [firmware_update; UPD_BEG]
               ++ deliveries [frame_0; frame_1] [[xee; x00]; []]
               ++ [UPD_END]) []).
Proof.
  apply (transaction_succeeds 3 terminal_80 [frame_0; frame_1]
           [[xee; x00]; []] 1 [] x00 []).
  - split; [discriminate | reflexivity].
  - reflexivity.
  - repeat constructor; try discriminate; simpl; lia.
  - discriminate.
Defined.

(* ------------------------------------------------------------------ *)
(** ** What a successful run has done *)

Section UploadSuccess.

(** X16: when [upload_firmware] ends normally, the whole file has been
    delivered.  The packets it built are well formed and their
    payloads concatenated are the file; the device has answered the
    announcement with some byte and BEGIN with ACK, has acknowledged
    every packet within the attempts allowed and has acknowledged END;
    what went out is the announcement, BEGIN, every packet once per
    attempt in file order, and END, and nothing else: no packet was
    skipped and [send_packet] sent no ERROR byte. *)
Theorem upload_success_means_delivery (fuel : nat) (full_time : Q)
    (self fu : FirmwareUpdater) :
  upload_firmware fuel full_time self = Some (inr tt, fu) ->
  exists (a : byte) (bss : list (list byte)),
    concat (map packet_payload (packets fu)) = file self
    /\ Forall well_formed (packets fu)
    /\ full_size fu = len (file self) + 6 * Z.of_nat (length (packets fu))
    /\ length bss = length (packets fu)
    /\ Forall (retries_within (attempts self)) bss
    /\ incoming (sock self)
       = Reply a :: Reply xff
           :: retry_script bss ++ Reply xff :: incoming (sock fu)
    /\ sent (sock fu)
       = sent (sock self) ++ [firmware_update; UPD_BEG]
           ++ deliveries (packets fu) bss ++ [UPD_END].
Proof.
  unfold upload_firmware. intros H.
  destruct (prepare_packets fuel (packsize self) (file self))
    as [[e|[ps n]]|] eqn:Hprep; try discriminate H.
  destruct (transaction (attempts self) ps full_time (sock self))
    as [r s'] eqn:Htr.
  inversion H; subst r fu. clear H. cbn [packets full_size sock].
  pose proof Hprep as Hwf. unfold prepare_packets in Hwf.
  apply prepare_loop_inr in Hwf. destruct Hwf as (new & Hnew & Hwf & _).
  cbn [app] in Hnew. subst new.
  apply prepare_packets_covers in Hprep.
  destruct Hprep as (ds & Hps & Hcat & _ & _ & Hn).
  apply transaction_inr in Htr.
  destruct Htr as (a & bss & Hlen & Hbss & Hin & Hs & _).
  exists a, bss. repeat split; try assumption.
  - subst ps. now rewrite payloads_of_packets.
  - subst ps n.
    rewrite total_len_packets, total_len_concat, Hcat, length_map.
    reflexivity.
Qed.

Lemma upload_success_means_delivery_witness :
  exists (a : byte) (bss : list (list byte)),
    concat (map packet_payload [frame_0; frame_1; frame_2]) = file scenario_A
    /\ Forall well_formed [frame_0; frame_1; frame_2]
    /\ 28 = len (file scenario_A)
            + 6 * Z.of_nat (length [frame_0; frame_1; frame_2])
    /\ length bss = length [frame_0; frame_1; frame_2]
    /\ Forall (retries_within (attempts scenario_A)) bss
    /\ incoming (sock scenario_A)
       = Reply a :: Reply xff :: retry_script bss ++ Reply xff :: []
    /\ [firmware_update; UPD_BEG; frame_0; frame_1; frame_2; UPD_END]
       = sent (sock scenario_A) ++ [firmware_update; UPD_BEG]
           ++ deliveries [frame_0; frame_1; frame_2] bss ++ [UPD_END].
Proof.
  apply (upload_success_means_delivery 3 1 scenario_A
           (mkFirmwareUpdater ten_bytes 1 4 3 0
              (mkSocket [firmware_update; UPD_BEG; frame_0; frame_1; frame_2;
                         UPD_END] [])
              28 [frame_0; frame_1; frame_2])).
  vm_compute. reflexivity.
Defined.

End UploadSuccess.

(* ------------------------------------------------------------------ *)
(** ** Finding the device by name *)

Section FindDevice.

Lemma starts_with_spec (needle hay : str) :
  starts_with needle hay = true <-> exists r, hay = needle ++ r.
Proof.
  revert hay. induction needle as [|a needle IH]; intros hay.
  - split; [intros _; now exists hay | reflexivity].
  - destruct hay as [|b hay]; cbn [starts_with].
    + split; [discriminate | intros [r Hr]; discriminate Hr].
    + rewrite andb_true_iff, Ascii.eqb_eq, IH. split.
      * intros [-> [r ->]]. now exists r.
      * intros [r Hr]. inversion Hr; subst. split; [reflexivity | now exists r].
Qed.

Lemma contains_spec (needle hay : str) :
  contains needle hay = true <-> occurs_in needle hay.
Proof.
  unfold occurs_in. induction hay as [|b hay IH]; cbn [contains].
  - rewrite orb_false_r, starts_with_spec. split.
    + intros [r Hr]. now exists [], r.
    + intros (l & r & H). destruct l; [now exists r | discriminate H].
  - rewrite orb_true_iff, starts_with_spec, IH. split.
    + intros [[r Hr] | (l & r & Hr)].
      * now exists [], r.
      * exists (b :: l), r. now rewrite Hr.
    + intros (l & r & Hr). destruct l as [|c l].
      * left. now exists r.
      * right. inversion Hr; subst. now exists l, r.
Qed.

Lemma contains_false (needle hay : str) :
  contains needle hay = false <-> ~ occurs_in needle hay.
Proof.
  rewrite <- contains_spec. destruct (contains needle hay); split;
    congruence.
Qed.

(** X17: the search by name takes the first nearby device whose name
    contains the given name: it returns an address exactly when that
    address is the one of a device whose name contains the given name
    while the name of no device listed before it does, and it raises
    'Device not found' exactly when the name of no nearby device
    contains the given name. *)
Theorem find_device_first_match (name : str)
    (nearby_devices : list (str * str)) :
  (forall addr : str,
      find_device name nearby_devices = inr addr <->
      exists (before : list (str * str)) (dev_name : str)
             (after : list (str * str)),
        nearby_devices = before ++ (addr, dev_name) :: after
        /\ occurs_in name dev_name
        /\ Forall (fun d => ~ occurs_in name (snd d)) before)
  /\ (forall e : exn,
         find_device name nearby_devices = inl e <->
         e = DeviceNotFound
         /\ Forall (fun d => ~ occurs_in name (snd d)) nearby_devices).
Proof.
  induction nearby_devices as [|[a n] devs [IHr IHl]]; cbn [find_device].
  - split.
    + intros addr. split; [discriminate|].
      intros (before & dn & after & H & _). destruct before; discriminate H.
    + intros e. split.
      * intros H. inversion H. split; [reflexivity | constructor].
      * intros [-> _]. reflexivity.
  - destruct (contains name n) eqn:E.
    + apply contains_spec in E. split.
      * intros addr. split.
        -- intros H. inversion H; subst.
           exists [], n, devs. repeat split; [exact E | constructor].
        -- intros (before & dn & after & H & Hin & Hb).
           destruct before as [|d before].
           ++ inversion H; subst. reflexivity.
           ++ inversion H; subst. inversion Hb; subst. contradiction.
      * intros e. split; [discriminate|].
        intros [_ H]. inversion H; subst. contradiction.
    + apply contains_false in E. split.
      * intros addr. rewrite IHr. split.
        -- intros (before & dn & after & -> & Hin & Hb).
           exists ((a, n) :: before), dn, after.
           repeat split; [exact Hin | constructor; assumption].
        -- intros (before & dn & after & H & Hin & Hb).
           destruct before as [|d before].
           ++ inversion H; subst. contradiction.
           ++ inversion H; subst. inversion Hb; subst.
              now exists before, dn, after.
      * intros e. rewrite IHl. split.
        -- intros [-> H]. split; [reflexivity | constructor; assumption].
        -- intros [-> H]. inversion H; subst. split; [reflexivity | assumption].
Qed.

End FindDevice.

(* ------------------------------------------------------------------ *)
(** ** Runs without a terminal *)

Section NoTerminal.

(** X18: when the standard output is not a terminal, no file that
    yields a frame can be uploaded.  The frames are built and the
    handshake is made; then the progress display, before the first
    frame is sent, asks for the size of the terminal and raises
    OSError: the run ends with only the announcement and BEGIN sent. *)
Theorem upload_needs_terminal (self : FirmwareUpdater) (con : console)
    (fuel : nat) (full_time : Q) (log : list bytes) (a : byte)
    (rest : list event) :
  terminal con = None ->
  file self <> [] ->
  0 < packsize self ->
  Z.min (packsize self) (len (file self)) < 65536 ->
  (length (file self) <= fuel)%nat ->
  sock self = mkSocket log (Reply a :: Reply xff :: rest) ->
  exists (ps : list bytes) (n : Z),
    prepare_packets fuel (packsize self) (file self) = Some (inr (ps, n))
    /\ ps <> []
    /\ upload_firmware_on con fuel full_time self =
       Some (inl OSError,
             mkFirmwareUpdater (file self) (timeout self) (packsize self)
               (attempts self) (verbose self)
               (mkSocket (log ++ [firmware_update; UPD_BEG]) rest) n ps).
Proof.
  intros Hcon Hne Hc Hmin Hfuel Hsock.
  pose proof (prepare_packets_build_frames (packsize self) (file self) fuel
                Hc Hmin Hfuel) as Hprep.
  assert (Hps : build_frames (packsize self) (file self) <> []).
  { unfold build_frames. intros E. apply map_eq_nil in E.
    revert E. apply chunks_nonempty; [exact Hne|].
    destruct (file self); [congruence | simpl; lia]. }
  destruct (build_frames (packsize self) (file self)) as [|p ps] eqn:Eps;
    [congruence|].
  exists (p :: ps), (len (file self) + 6 * Z.of_nat (length (p :: ps))).
  split; [exact Hprep|]. split; [discriminate|].
  unfold upload_firmware_on. rewrite Hprep, Hsock.
  unfold transaction_on, bind.
  rewrite starting_transaction_ok.
  rewrite sending_packets_on_no_terminal by exact Hcon.
  reflexivity.
Qed.

Lemma upload_needs_terminal_witness :
  exists (ps : list bytes) (n : Z),
    prepare_packets 10 (packsize scenario_A) (file scenario_A)
    = Some (inr (ps, n))
    /\ ps <> []
    /\ upload_firmware_on not_a_terminal 10 1 scenario_A =
       Some (inl OSError,
             mkFirmwareUpdater (file scenario_A) (timeout scenario_A)
               (packsize scenario_A) (attempts scenario_A)
               (verbose scenario_A)
               (mkSocket ([] ++ [firmware_update; UPD_BEG])
                  (repeat (Reply xff) 4)) n ps).
Proof.
  apply (upload_needs_terminal scenario_A not_a_terminal 10 1 [] xff
           (repeat (Reply xff) 4)).
  - reflexivity.
  - discriminate.
  - simpl. lia.
  - vm_compute. reflexivity.
  - simpl. lia.
  - reflexivity.
Defined.

End NoTerminal.
